(** * Grid-update load generator (test-kafka-producer.py)

    A shallow embedding of the load generator: the synthesizer
    [create_cell_update_message] and the driver [main], with the random
    generator, the wall clock and the outcome of every external call
    (broker, console, sleep) made explicit inputs. *)

From Stdlib Require Import ZArith NArith QArith Qround Qabs Qpower.
From Stdlib Require Import List Sorted String Ascii Bool Lia Lqa.
From Stdlib Require Import DecimalString DecimalZ.
From Stdlib Require DecimalPos DecimalN DecimalFacts Decimal.
Import ListNotations.

Open Scope string_scope.
Open Scope list_scope.
Open Scope Z_scope.

(** ** Python floats

    A finite binary64 value is modelled by the rational it denotes.  Every
    arithmetic result is rounded to the nearest value with a 53-bit
    significand, ties to even, with the gradual underflow of the format
    (no exponent below [emin]).  Overflow to infinity is not modelled: the
    floats of this program are clock readings in seconds, numbers below
    1000 and their products by 1000. *)

Module PyFloat.

Definition pow2 (e : Z) : Q := (2 ^ e)%Q.

(** [ilog2 x] is the exponent of the binade of a positive [x]:
    [2^(ilog2 x) <= x < 2^(ilog2 x + 1)]. *)
Definition ilog2 (x : Q) : Z :=
  let e0 := Z.log2 (Qnum x) - Z.log2 (Z.pos (Qden x)) in
  if Qle_bool (pow2 e0) x then e0 else e0 - 1.

(** Nearest integer, ties to the even one. *)
Definition rne (x : Q) : Z :=
  let f := Qfloor x in
  match Qcompare (x - inject_Z f) (1 # 2) with
  | Lt => f
  | Gt => f + 1
  | Eq => if Z.even f then f else f + 1
  end.

Definition emin : Z := -1022.

(** Exponent of the unit in the last place of the binade of [x]. *)
Definition ulp_exp (x : Q) : Z := Z.max (ilog2 x) emin - 52.

Definition round_pos (x : Q) : Q :=
  let s := ulp_exp x in (inject_Z (rne (x * pow2 (- s))) * pow2 s)%Q.

(** Rounding of an exact result to binary64. *)
Definition rnd (x : Q) : Q :=
  Qred (if Qle_bool 0 x then round_pos x else - round_pos (- x))%Q.

Definition fadd (x y : Q) : Q := rnd (x + y).
Definition fsub (x y : Q) : Q := rnd (x - y).
Definition fmul (x y : Q) : Q := rnd (x * y).

(** [int(x)]: truncation toward zero. *)
Definition py_int (x : Q) : Z := Z.quot (Qnum x) (Z.pos (Qden x)).

(** [round(x, ndigits)] for [ndigits >= 0]: the decimal with [ndigits]
    fractional digits nearest to the exact value of [x] (ties to even),
    read back as a float. *)
Definition py_round (x : Q) (ndigits : nat) : Q :=
  let p := inject_Z (10 ^ Z.of_nat ndigits) in
  rnd (inject_Z (rne (x * p)) / p).

End PyFloat.
Import PyFloat.

(** ** Python values, exceptions *)

Inductive pyval : Type :=
| VStr (s : string)
| VFloat (x : Q)
| VInt (n : Z)
| VBool (b : bool).

Inductive pytype : Type := TStr | TFloat | TInt | TBool.

Definition type_of (v : pyval) : pytype :=
  match v with
  | VStr _ => TStr
  | VFloat _ => TFloat
  | VInt _ => TInt
  | VBool _ => TBool
  end.

(** [str(n)] of an integer: its decimal numeral. *)
Definition py_str (n : Z) : string := NilZero.string_of_int (Z.to_int n).

(** The part of the exception hierarchy the handlers of [main] tell apart:
    [Exc cls] is any class derived from [Exception]; [KeyboardInterrupt] and
    [SystemExit] derive from [BaseException] only. *)
Inductive exn : Type :=
| KeyboardInterrupt
| SystemExit
| Exc (cls : string).

(** ** The data model: the dictionaries built by the synthesizer *)

Record Change : Type := mkChange {
  row : Z;
  column : Z;
  newValue : pyval;
  dataType : string
}.

Record Batch : Type := mkBatch {
  batchId : string;
  gridId : string;
  eventType : string;
  changes : list Change;
  timestamp : Z
}.

(** ** The world of the program *)

(** What [main] writes with [print], one constructor per statement. *)
Inductive line : Type :=
| LStarting
| LWillSend
| LPressCtrlC
| LConnected
| LSent (batch_count : Z) (n : nat)
| LGrid (grid : string)
| LChanges (cells : list (Z * Z * pyval))
| LTimestamp (ms : Z)
| LBlank
| LStopping
| LError (e : exn)
| LClosed.

(** The handle returned by [KafkaProducer(...)]. *)
Record Producer : Type := mkProducer { bootstrap_servers : list string }.

(** External calls, logged when they are entered. *)
Inductive event : Type :=
| EvConnect (servers : list string)
| EvSend (topic : string) (value : Batch) (key : string)
| EvFlush
| EvSleep (seconds : Q)
| EvPrint (l : line)
| EvClose.

(** The inputs of a run: the draws of the random generator, the readings
    of the wall clock (seconds since the epoch), and for every external
    call whether it completes ([None]) or an exception surfaces in it
    ([Some e]: a failure of the callee, or an interrupt delivered there). *)
Record Env : Type := mkEnv {
  rand_tape : nat -> N;
  clock_tape : nat -> Q;
  ext_tape : nat -> option exn
}.

(** The mutable state: positions on the three tapes, the local variable
    [producer] of [main] (unbound until assigned) and the log. *)
Record State : Type := mkState {
  rpos : nat;
  cpos : nat;
  xpos : nat;
  producer : option Producer;
  log : list event
}.

Definition init_state : State := mkState 0 0 0 None [].

(** [Running]: the loop has not ended within the fuel given. *)
Inductive outcome (A : Type) : Type :=
| Ret (a : A)
| Raise (e : exn)
| Running.
Arguments Ret {A} a.
Arguments Raise {A} e.
Arguments Running {A}.

Definition M (A : Type) : Type := Env -> State -> outcome A * State.

Definition ret {A} (a : A) : M A := fun _ st => (Ret a, st).

Definition bind {A B} (m : M A) (k : A -> M B) : M B :=
  fun env st =>
    match m env st with
    | (Ret a, st') => k a env st'
    | (Raise e, st') => (Raise e, st')
    | (Running, st') => (Running, st')
    end.

Definition raise {A} (e : exn) : M A := fun _ st => (Raise e, st).

Definition running {A} : M A := fun _ st => (Running, st).

Declare Scope py_scope.
Delimit Scope py_scope with py.
Notation "x <- m ;; k" := (bind m (fun x => k))
  (at level 61, m at next level, right associativity) : py_scope.
Notation "m ;; k" := (bind m (fun _ => k))
  (at level 61, right associativity) : py_scope.
Open Scope py_scope.

(** The three ways the tapes are consumed: a draw, a clock reading, an
    external call (which is logged). *)
Definition next_draw (st : State) : State :=
  mkState (S (rpos st)) (cpos st) (xpos st) (producer st) (log st).

Definition next_tick (st : State) : State :=
  mkState (rpos st) (S (cpos st)) (xpos st) (producer st) (log st).

Definition entered (ev : event) (st : State) : State :=
  mkState (rpos st) (cpos st) (S (xpos st)) (producer st) (log st ++ [ev]).

(** ** The library calls *)

(** One draw of the generator. *)
Definition draw : M N := fun env st =>
  (Ret (rand_tape env (rpos st)), next_draw st).

(** [random.randint(a, b)]: an integer [n] with [a <= n <= b];
    [ValueError] on an empty range. *)
Definition randint (a b : Z) : M Z :=
  if b <? a then raise (Exc "ValueError")
  else r <- draw ;; ret (a + Z.of_N r mod (b - a + 1)).

(** [random.choice(seq)]: an element of [seq]; [IndexError] when empty. *)
Definition choice {A} (seq : list A) : M A :=
  match seq with
  | [] => raise (Exc "IndexError")
  | x :: _ =>
      r <- draw ;;
      ret (nth (N.to_nat (r mod N.of_nat (List.length seq))) seq x)
  end.

(** [random.random()]: a multiple of [2^-53] in [[0, 1)]. *)
Definition random : M Q :=
  r <- draw ;; ret (Z.of_N (r mod 2 ^ 53) # 2 ^ 53).

(** [random.uniform(a, b)] is [a + (b - a) * random()]. *)
Definition uniform (a b : Q) : M Q :=
  r <- random ;; ret (fadd a (fmul (fsub b a) r)).

(** [time.time()]. *)
Definition time_time : M Q := fun env st =>
  (Ret (clock_tape env (cpos st)), next_tick st).

(** [int(time.time() * 1000)] *)
Definition now_ms : M Z :=
  t <- time_time ;; ret (py_int (fmul t 1000)).

(** ** create_cell_update_message *)

Definition value_types : list string :=
  ["string"; "number"; "integer"; "boolean"; "timestamp"].

(** The body of the [for] loop: one random cell change, appended. *)
Definition loop_body (changes : list Change) : M (list Change) :=
  row <- randint 0 49 ;;
  col <- randint 0 24 ;;
  data_type <- choice value_types ;;
  value <-
    (if (data_type =? "string")%string then
       n <- randint 1000 9999 ;; ret (VStr ("Updated_" ++ py_str n)%string)
     else if (data_type =? "number")%string then
       u <- uniform 1 1000 ;; ret (VFloat (py_round u 2))
     else if (data_type =? "integer")%string then
       n <- randint 1 1000 ;; ret (VInt n)
     else if (data_type =? "boolean")%string then
       b <- choice [true; false] ;; ret (VBool b)
     else
       t <- now_ms ;; ret (VInt t)) ;;
  ret (changes ++ [mkChange row col value data_type]).

(** [for i in range(n)]: [n] rounds of the body, none when [n <= 0]. *)
Fixpoint for_range {A} (n : nat) (body : A -> M A) (acc : A) : M A :=
  match n with
  | O => ret acc
  | S n' => acc' <- body acc ;; for_range n' body acc'
  end.

Definition create_cell_update_message
    (grid_id : string) (num_changes : Z) : M Batch :=
  changes <- for_range (Z.to_nat num_changes) loop_body [] ;;
  t <- now_ms ;;
  suffix <- randint 1000 9999 ;;
  ts <- now_ms ;;
  ret (mkBatch ("batch_" ++ py_str t ++ "_" ++ py_str suffix)%string
               grid_id "CELL_UPDATE" changes ts).

(** ** main *)

(** An external call: logged on entry, then completes or raises as the
    environment says. *)
Definition ext_call (ev : event) : M unit := fun env st =>
  match ext_tape env (xpos st) with
  | None => (Ret tt, entered ev st)
  | Some e => (Raise e, entered ev st)
  end.

Definition print (l : line) : M unit := ext_call (EvPrint l).

Definition create_producer : M Producer :=
  ext_call (EvConnect ["localhost:9092"]) ;;
  ret (mkProducer ["localhost:9092"]).

Definition producer_send (p : Producer) (topic : string) (value : Batch)
    (key : string) : M unit := ext_call (EvSend topic value key).

Definition producer_flush (p : Producer) : M unit := ext_call EvFlush.

Definition producer_close (p : Producer) : M unit := ext_call EvClose.

Definition time_sleep (seconds : Q) : M unit := ext_call (EvSleep seconds).

(** Assignment to, and use of, the local variable [producer]: using it
    unbound raises [UnboundLocalError], a [NameError]. *)
Definition store_producer (p : Producer) : M unit := fun _ st =>
  (Ret tt, mkState (rpos st) (cpos st) (xpos st) (Some p) (log st)).

Definition load_producer : M Producer := fun _ st =>
  match producer st with
  | Some p => (Ret p, st)
  | None => (Raise (Exc "UnboundLocalError"), st)
  end.

(** [try: body / except ...]: [handler e] is the first clause matching
    [e], if any. *)
Definition try_except {A} (body : M A) (handler : exn -> option (M A))
    : M A :=
  fun env st =>
    match body env st with
    | (Raise e, st') =>
        match handler e with
        | Some h => h env st'
        | None => (Raise e, st')
        end
    | r => r
    end.

(** [try: body / finally: fin]: [fin] runs however [body] ends; an
    exception of [fin] replaces the pending result. *)
Definition try_finally {A} (body : M A) (fin : M unit) : M A :=
  fun env st =>
    match body env st with
    | (Running, st') => (Running, st')
    | (r, st') =>
        match fin env st' with
        | (Ret _, st'') => (r, st'')
        | (Raise e, st'') => (Raise e, st'')
        | (Running, st'') => (Running, st'')
        end
    end.

Definition cells (b : Batch) : list (Z * Z * pyval) :=
  map (fun c => (row c, column c, newValue c)) (changes b).

(** [while True: ...], unrolled [fuel] times. *)
Fixpoint main_loop (fuel : nat) (batch_count : Z) : M unit :=
  match fuel with
  | O => running
  | S fuel' =>
      n <- randint 1 3 ;;
      message <- create_cell_update_message "user1_view1" n ;;
      p <- load_producer ;;
      producer_send p "grid-updates" message "user1_view1" ;;
      p <- load_producer ;;
      producer_flush p ;;
      print (LSent batch_count (List.length (changes message))) ;;
      print (LGrid (gridId message)) ;;
      print (LChanges (cells message)) ;;
      print (LTimestamp (timestamp message)) ;;
      print LBlank ;;
      d <- uniform (1 # 2) 2 ;;
      time_sleep d ;;
      main_loop fuel' (batch_count + 1)
  end.

Definition main_try (fuel : nat) : M unit :=
  p <- create_producer ;;
  store_producer p ;;
  print LConnected ;;
  main_loop fuel 1.

(** [except KeyboardInterrupt] first, then [except Exception as e]. *)
Definition main_handlers (e : exn) : option (M unit) :=
  match e with
  | KeyboardInterrupt => Some (print LStopping)
  | Exc _ => Some (print (LError e))
  | SystemExit => None
  end.

(** The [finally] block: [close], any exception of which is dropped by
    the bare [except]. *)
Definition main_finally : M unit :=
  try_except
    (p <- load_producer ;; producer_close p ;; print LClosed)
    (fun _ => Some (ret tt)).

Definition main (fuel : nat) : M unit :=
  print LStarting ;;
  print LWillSend ;;
  print LPressCtrlC ;;
  try_finally (try_except (main_try fuel) main_handlers) main_finally.

(** ** Vocabulary of the properties *)

(** The wall clock read in whole milliseconds at position [i] of the tape. *)
Definition ms_at (env : Env) (i : nat) : Z :=
  py_int (fmul (clock_tape env i) 1000).

(** The runtime type a [dataType] tag declares. *)
Definition declared_type (tag : string) : option pytype :=
  if (tag =? "string")%string then Some TStr
  else if (tag =? "number")%string then Some TFloat
  else if (tag =? "integer")%string then Some TInt
  else if (tag =? "boolean")%string then Some TBool
  else if (tag =? "timestamp")%string then Some TInt
  else None.

(** The batches handed to [producer.send] in a log, in order. *)
Definition batches_of (l : list event) : list Batch :=
  flat_map (fun ev => match ev with EvSend _ b _ => [b] | _ => [] end) l.

(** How many times [close] was called in a log. *)
Definition closes (l : list event) : nat :=
  List.length
    (filter (fun ev => match ev with EvClose => true | _ => false end) l).

(** [m] returns a value (it neither raises nor runs out of fuel), and the
    value and final state satisfy [Q]. *)
Definition returns {A} (m : M A) (env : Env) (st : State)
    (Q : A -> State -> Prop) : Prop :=
  exists a st', m env st = (Ret a, st') /\ Q a st'.

(** The only traces a call of the synthesizer leaves: the two cursors it
    advances. *)
Definition advances (st st' : State) : Prop :=
  (rpos st <= rpos st')%nat /\ (cpos st <= cpos st')%nat /\
  xpos st' = xpos st /\ producer st' = producer st /\ log st' = log st.

(** What the branch of each tag stores in [newValue]. *)
Inductive value_ok (env : Env) : string -> pyval -> Prop :=
| ok_string n :
    1000 <= n <= 9999 ->
    value_ok env "string" (VStr ("Updated_" ++ py_str n))
| ok_number v :
    (1 <= v)%Q -> (v <= 1000)%Q -> py_round v 2 = v ->
    value_ok env "number" (VFloat v)
| ok_integer n :
    1 <= n <= 1000 -> value_ok env "integer" (VInt n)
| ok_boolean b :
    value_ok env "boolean" (VBool b)
| ok_timestamp i :
    value_ok env "timestamp" (VInt (ms_at env i)).

Definition change_ok (env : Env) (c : Change) : Prop :=
  0 <= row c < 50 /\ 0 <= column c < 25 /\
  value_ok env (dataType c) (newValue c).

(** The tag the third draw of a round of the loop selects. *)
Definition chosen_tag (env : Env) (st : State) : string :=
  nth (N.to_nat (rand_tape env (2 + rpos st) mod 5)) value_types "string".

(** The state after [dr] more draws and [dc] more clock readings. *)
Definition reads (dr dc : nat) (st : State) : State :=
  mkState (rpos st + dr) (cpos st + dc) (xpos st) (producer st) (log st).

(** Two calls are given the same inputs: the same draws and the same
    clock readings from their cursors on, whatever else their
    environments and their states hold. *)
Definition same_inputs (env1 : Env) (st1 : State) (env2 : Env) (st2 : State)
    : Prop :=
  (forall k, rand_tape env1 (rpos st1 + k) = rand_tape env2 (rpos st2 + k)) /\
  (forall k, clock_tape env1 (cpos st1 + k) = clock_tape env2 (cpos st2 + k)).

(** [m] is a function of its inputs alone: two calls given the same
    inputs end the same way, after the same number of draws and of clock
    readings, which are all they change in their states. *)
Definition input_determined {A} (m : M A) : Prop :=
  forall env1 st1 env2 st2,
    same_inputs env1 st1 env2 st2 ->
    exists o dr dc,
      m env1 st1 = (o, reads dr dc st1) /\ m env2 st2 = (o, reads dr dc st2).

(** Partial correctness with one postcondition for all three outcomes. *)
Definition hoare {A} (env : Env) (P : State -> Prop) (m : M A)
    (Q : outcome A -> State -> Prop) : Prop :=
  forall st, P st -> Q (fst (m env st)) (snd (m env st)).

(** [Q] holds of the outcome and final state of [m] run from [st]. *)
Definition post {A} (m : M A) (env : Env) (st : State)
    (Q : outcome A -> State -> Prop) : Prop :=
  Q (fst (m env st)) (snd (m env st)).

(** What is known of a batch of a run whose batchId was built from the
    clock reading at position [i]: the next reading is its timestamp. *)
Definition batch_fact (env : Env) (b : Batch) (i : nat) : Prop :=
  eventType b = "CELL_UPDATE" /\
  (1 <= List.length (changes b) <= 3)%nat /\
  (exists suffix, 1000 <= suffix <= 9999 /\
     batchId b = ("batch_" ++ py_str (ms_at env i) ++ "_"
                           ++ py_str suffix)%string) /\
  timestamp b = ms_at env (S i).

(** The batches sent so far come from clock readings at increasing
    positions, all behind the cursor. *)
Definition batch_inv (env : Env) (st : State) : Prop :=
  exists idx,
    Forall2 (batch_fact env) (batches_of (log st)) idx /\
    StronglySorted lt idx /\
    Forall (fun i => (S i < cpos st)%nat) idx.

(** The first external call in which an exception surfaces is call [i]. *)
Definition first_raise (env : Env) (i : nat) (e : exn) : Prop :=
  (forall j, (j < i)%nat -> ext_tape env j = None) /\
  ext_tape env i = Some e.

(** ** Vocabulary of the proofs about [main] *)

(** Between two external calls of [main]: the facts about the log and
    the local variable. *)
Definition sane (env : Env) (p : Producer) (st : State) : Prop :=
  batch_inv env st /\ List.length (log st) = xpos st /\
  closes (log st) = 0%nat /\ producer st = Some p.

(** Every external call entered so far has completed. *)
Definition prior_none (env : Env) (st : State) : Prop :=
  forall j, (j < xpos st)%nat -> ext_tape env j = None.

(** Events other than [send] and [close]. *)
Definition quiet (ev : event) : Prop :=
  match ev with EvSend _ _ _ | EvClose => False | _ => True end.

Definition loop_post (env : Env) (p : Producer) (x0 fuel : nat)
    (o : outcome unit) (st : State) : Prop :=
  sane env p st /\
  match o with
  | Ret _ => False
  | Running => xpos st = (x0 + 8 * fuel)%nat /\ prior_none env st
  | Raise e => exists i, xpos st = S i /\ first_raise env i e
  end.

(** No [sleep] has been entered. *)
Definition no_sleep (l : list event) : Prop := forall d, ~ In (EvSleep d) l.

Definition try_post (env : Env) (fuel x0 : nat) (o : outcome unit)
    (st : State) : Prop :=
  batch_inv env st /\ List.length (log st) = xpos st /\
  closes (log st) = 0%nat /\
  (producer st = None -> no_sleep (log st)) /\
  match o with
  | Ret _ => False
  | Running => xpos st = (x0 + 2 + 8 * fuel)%nat /\ prior_none env st
  | Raise e => exists i, xpos st = S i /\ first_raise env i e
  end.

(** The state in which the [try] statement is entered. *)
Definition started : State :=
  entered (EvPrint LPressCtrlC)
    (entered (EvPrint LWillSend) (entered (EvPrint LStarting) init_state)).

(** Whether a character occurs in a string. *)
Fixpoint has_char (c : ascii) (s : string) : bool :=
  match s with
  | EmptyString => false
  | String a s' => Ascii.eqb a c || has_char c s'
  end.

(** ** Sample runs *)

(** Nothing ever fails: the run goes on until the fuel is spent. *)
Definition never_fails : nat -> option exn := fun _ => None.

(** A clock that gains a tenth of a second from each reading to the next,
    and a generator whose draws vary. *)
Definition env_ticking : Env :=
  mkEnv (fun n => (N.of_nat n * 2862933555777941757 + 3037000493)%N)
        (fun n => inject_Z 1700000000 + inject_Z (Z.of_nat n) / 10)%Q
        never_fails.

(** A run in which the clock is set back between the readings (one second
    lost at each) . *)
Definition env_clock_set_back : Env :=
  mkEnv (fun _ => 0%N)
        (fun n => inject_Z (1700000000 - Z.of_nat n))
        never_fails.

(** A run in which every reading of the clock falls in the same
    millisecond and every draw is the same. *)
Definition env_same_reading : Env :=
  mkEnv (fun _ => 0%N) (fun _ => inject_Z 1700000000) never_fails.

(** The interrupt is delivered during the first [print] of [main]. *)
Definition env_interrupt_at_start : Env :=
  mkEnv (fun _ => 0%N) (fun _ => inject_Z 1700000000)
        (fun n => if Nat.eqb n 0 then Some KeyboardInterrupt else None).

(** The interrupt is delivered during the first [sleep], and a second one
    during the [print] of the handler. *)
Definition env_interrupt_twice : Env :=
  mkEnv (fun _ => 0%N) (fun _ => inject_Z 1700000000)
        (fun n => if (Nat.eqb n 12 || Nat.eqb n 13)%bool
                  then Some KeyboardInterrupt else None).

(** [SystemExit] surfaces in the first [send]. *)
Definition env_system_exit : Env :=
  mkEnv (fun _ => 0%N) (fun _ => inject_Z 1700000000)
        (fun n => if Nat.eqb n 5 then Some SystemExit else None).

(** The interrupt is delivered during the first [sleep]. *)
Definition env_interrupt_asleep : Env :=
  mkEnv (rand_tape env_ticking) (clock_tape env_ticking)
        (fun n => if Nat.eqb n 12 then Some KeyboardInterrupt else None).

(** The broker cannot be reached. *)
Definition env_no_broker : Env :=
  mkEnv (fun _ => 0%N) (fun _ => inject_Z 1700000000)
        (fun n => if Nat.eqb n 3 then Some (Exc "NoBrokersAvailable")
                  else None).

(** The first [send] fails. *)
Definition env_send_fails : Env :=
  mkEnv (fun _ => 0%N) (fun _ => inject_Z 1700000000)
        (fun n => if Nat.eqb n 5 then Some (Exc "KafkaTimeoutError")
                  else None).

(** Every draw is 2: the tag chosen is ["integer"]. *)
Definition env_all_twos : Env :=
  mkEnv (fun _ => 2%N) (fun _ => inject_Z 1700000000) never_fails.

(** The same draws and readings as [env_ticking], in a run whose
    external calls all fail. *)
Definition env_ticking_offline : Env :=
  mkEnv (rand_tape env_ticking) (clock_tape env_ticking)
        (fun _ => Some (Exc "OSError")).

(** The batches of [fuel] rounds of [main]. *)
Definition run_batches_of (env : Env) (fuel : nat) : list Batch :=
  batches_of (log (snd (main fuel env init_state))).

(** The third draw selects ["number"]; the fourth is the draw of
    [random.random()]. *)
Definition env_number : Env :=
  mkEnv (fun n => match n with
                  | 2%nat => 1%N
                  | 3%nat => 4917330263231743%N
                  | _ => 0%N
                  end)
        (fun _ => inject_Z 1700000000) never_fails.

(** A state of [main] in mid-run: five external calls made, [producer]
    bound, two draws and a clock reading behind. *)
Definition st_mid_run : State :=
  mkState 2 1 5 (Some (mkProducer ["localhost:9092"]))
          [EvPrint LStarting; EvPrint LWillSend; EvPrint LPressCtrlC;
           EvConnect ["localhost:9092"]; EvPrint LConnected].

(** The draws and readings of [env_ticking], met two draws and one
    reading later, in a run whose external calls all fail. *)
Definition env_ticking_late : Env :=
  mkEnv (fun n => rand_tape env_ticking (n - 2))
        (fun n => clock_tape env_ticking (n - 1))
        (fun _ => Some (Exc "OSError")).

(** A batch with a value of each kind. *)
Definition sample_batch : Batch :=
  mkBatch "batch_1700000000000_1234" "user1_view1" "CELL_UPDATE"
    [mkChange 3 4 (VFloat (rnd (54639 # 100))) "number";
     mkChange 0 24 (VStr "Updated_1000") "string";
     mkChange 49 0 (VBool true) "boolean";
     mkChange 1 1 (VInt 1700000000123) "timestamp";
     mkChange 7 7 (VInt 1000) "integer"]
    1700000000001.

(** ** The wire format: [json.dumps(v).encode('utf-8')] and its decoding

    Python strings are modelled by Rocq strings read as sequences of code
    points below 256. *)

(** The values [json] handles. *)
#[warnings="-register-all"]
Inductive json : Type :=
| JNull
| JBool (b : bool)
| JInt (n : Z)
| JFloat (x : Q)
| JStr (s : string)
| JList (l : list json)
| JDict (d : list (string * json)).

(** The dictionaries of the data model, keys in the order of the source. *)
Definition of_pyval (v : pyval) : json :=
  match v with
  | VStr s => JStr s
  | VFloat x => JFloat x
  | VInt n => JInt n
  | VBool b => JBool b
  end.

Definition change_value (c : Change) : json :=
  JDict [("row", JInt (row c)); ("column", JInt (column c));
         ("newValue", of_pyval (newValue c));
         ("dataType", JStr (dataType c))].

Definition batch_value (b : Batch) : json :=
  JDict [("batchId", JStr (batchId b)); ("gridId", JStr (gridId b));
         ("eventType", JStr (eventType b));
         ("changes", JList (map change_value (changes b)));
         ("timestamp", JInt (timestamp b))].

Module Json.

Definition quote : ascii := "034"%char.
Definition backslash : ascii := "092"%char.

(** *** Floats: [float.__repr__] *)

Definition pow10 (k : Z) : Q := (10 ^ k)%Q.

(** The decimal exponent of a positive [x]: the [e] with
    [10^e <= x < 10^(e+1)], looked for over the range of binary64. *)
Definition ilog10 (x : Q) : Z :=
  match find (fun e => Qle_bool (pow10 e) x && negb (Qle_bool (pow10 (e + 1)) x))
             (map (fun k => Z.of_nat k - 330) (seq 0 660)) with
  | Some e => e
  | None => 0
  end.

(** The float a decimal numeral [c * 10^(-s)] reads as. *)
Definition float_of_scaled (c s : Z) : Q := rnd (inject_Z c * pow10 (- s)).

(** The two decimals with [n] significant digits around [x], the nearer
    first (the even one on a tie), as pairs [(c, s)] for [c * 10^(-s)]. *)
Definition candidates (x : Q) (n : Z) : list (Z * Z) :=
  let s := n - 1 - ilog10 x in
  let y := (x * pow10 s)%Q in
  let lo := Qfloor y in
  let hi := Qceiling y in
  match Qcompare (y - inject_Z lo) (inject_Z hi - y) with
  | Lt => [(lo, s); (hi, s)]
  | Gt => [(hi, s); (lo, s)]
  | Eq => if Z.even lo then [(lo, s); (hi, s)] else [(hi, s); (lo, s)]
  end.

(** The shortest decimal that reads back as [x], the nearest to [x] among
    the shortest; 17 digits always suffice for a binary64. *)
Definition shortest (x : Q) : Z * Z :=
  match find (fun cs => Qeq_bool (float_of_scaled (fst cs) (snd cs)) x)
             (flat_map (candidates x) (map Z.of_nat (seq 1 17))) with
  | Some cs => cs
  | None => (rne (x * pow10 (16 - ilog10 x)), 16 - ilog10 x)
  end.

(** Trailing zeros of the fraction are not written. *)
Fixpoint strip_zeros (fuel : nat) (c s : Z) : Z * Z :=
  match fuel with
  | O => (c, s)
  | S fuel' =>
      if (0 <? s) && (c mod 10 =? 0) then strip_zeros fuel' (c / 10) (s - 1)
      else (c, s)
  end.

Definition digit_char (d : Z) : ascii := ascii_of_nat (48 + Z.to_nat d).

(** The [w] low decimal digits of [f], most significant first. *)
Fixpoint low_digits (w : nat) (f : Z) (rest : string) : string :=
  match w with
  | O => rest
  | S w' => low_digits w' (f / 10) (String (digit_char (f mod 10)) rest)
  end.

(** All trailing zeros of the digit string are dropped for the exponent
    form. *)
Fixpoint drop_zeros (fuel : nat) (c : Z) : Z :=
  match fuel with
  | O => c
  | S fuel' => if (c mod 10 =? 0) && negb (c =? 0) then drop_zeros fuel' (c / 10)
               else c
  end.

Definition two_digits (n : Z) : string :=
  if n <? 10 then String "0" (py_str n) else py_str n.

(** [repr] of a positive float. *)
Definition repr_pos (x : Q) : string :=
  let '(c0, s0) := shortest x in
  let '(c, s) := strip_zeros 17 c0 s0 in
  let decpt := ilog10 (inject_Z c * pow10 (- s)) + 1 in
  if (-4 <? decpt) && (decpt <=? 16) then
    if s <=? 0 then (py_str (c * 10 ^ (- s)) ++ ".0")%string
    else (py_str (c / 10 ^ s)
            ++ String "." (low_digits (Z.to_nat s) (c mod 10 ^ s) ""))%string
  else
    let d := drop_zeros 17 c in
    let digits := py_str d in
    let mantissa :=
      match digits with
      | String d1 EmptyString => digits
      | String d1 more => String d1 (String "." more)
      | EmptyString => digits
      end in
    let sign := if (decpt - 1 <? 0)%Z then "e-" else "e+" in
    (mantissa ++ sign ++ two_digits (Z.abs (decpt - 1)))%string.

Definition float_repr (x : Q) : string :=
  match Qcompare x 0 with
  | Eq => "0.0"
  | Gt => repr_pos x
  | Lt => String "-" (repr_pos (- x))
  end.

(** *** Strings: [encode_basestring_ascii] *)

Definition hex_digit (n : nat) : ascii :=
  nth n (list_ascii_of_string "0123456789abcdef") "0"%char.

Definition escape_char (c : ascii) : string :=
  let n := nat_of_ascii c in
  if Ascii.eqb c quote then String backslash (String quote "")
  else if Ascii.eqb c backslash then String backslash (String backslash "")
  else if Nat.eqb n 8 then String backslash "b"
  else if Nat.eqb n 12 then String backslash "f"
  else if Nat.eqb n 10 then String backslash "n"
  else if Nat.eqb n 13 then String backslash "r"
  else if Nat.eqb n 9 then String backslash "t"
  else if (Nat.ltb n 32 || Nat.ltb 126 n)%bool then
    String backslash
      (String "u" (String "0" (String "0"
         (String (hex_digit (n / 16)) (String (hex_digit (n mod 16)) "")))))
  else String c "".

Fixpoint escape_into (s : string) (rest : string) : string :=
  match s with
  | EmptyString => rest
  | String c s' => (escape_char c ++ escape_into s' rest)%string
  end.

Definition emit_string (s : string) (rest : string) : string :=
  String quote (escape_into s (String quote rest)).

(** *** [json.dumps], writing in front of [rest]; separators [", "] and
    [": "] *)

Fixpoint emit_items (em : json -> string -> string) (l : list json)
    (rest : string) : string :=
  match l with
  | [] => String "]" rest
  | x :: l' =>
      em x (match l' with
            | [] => String "]" rest
            | _ :: _ => (", " ++ emit_items em l' rest)%string
            end)
  end.

Fixpoint emit_members (em : json -> string -> string)
    (d : list (string * json)) (rest : string) : string :=
  match d with
  | [] => String "}" rest
  | (k, x) :: d' =>
      emit_string k
        (": " ++ em x (match d' with
                       | [] => String "}" rest
                       | _ :: _ => (", " ++ emit_members em d' rest)%string
                       end))%string
  end.

Fixpoint emit (v : json) (rest : string) {struct v} : string :=
  match v with
  | JNull => ("null" ++ rest)%string
  | JBool true => ("true" ++ rest)%string
  | JBool false => ("false" ++ rest)%string
  | JInt n => (py_str n ++ rest)%string
  | JFloat x => (float_repr x ++ rest)%string
  | JStr s => emit_string s rest
  | JList l => String "[" (emit_items emit l rest)
  | JDict d => String "{" (emit_members emit d rest)
  end.

Definition dumps (v : json) : string := emit v "".

(** *** [str.encode('utf-8')] and its inverse *)

Definition byte_of_nat (n : nat) : Byte.byte := byte_of_ascii (ascii_of_nat n).
Definition nat_of_byte (b : Byte.byte) : nat := nat_of_ascii (ascii_of_byte b).

Fixpoint encode_utf8 (s : string) : list Byte.byte :=
  match s with
  | EmptyString => []
  | String c s' =>
      let n := nat_of_ascii c in
      if Nat.ltb n 128 then byte_of_nat n :: encode_utf8 s'
      else byte_of_nat (192 + n / 64) :: byte_of_nat (128 + n mod 64)
             :: encode_utf8 s'
  end.

(** Code points from 256 on are outside the strings modelled. *)
Fixpoint decode_utf8 (bs : list Byte.byte) : option string :=
  match bs with
  | [] => Some EmptyString
  | b :: bs' =>
      let n := nat_of_byte b in
      if Nat.ltb n 128 then option_map (String (ascii_of_nat n)) (decode_utf8 bs')
      else if (Nat.leb 194 n && Nat.leb n 195)%bool then
        match bs' with
        | b2 :: bs'' =>
            let n2 := nat_of_byte b2 in
            if (Nat.leb 128 n2 && Nat.ltb n2 192)%bool then
              option_map (String (ascii_of_nat ((n - 192) * 64 + (n2 - 128))))
                         (decode_utf8 bs'')
            else None
        | [] => None
        end
      else None
  end.

(** The [value_serializer] of the producer. *)
Definition value_serializer (v : json) : list Byte.byte :=
  encode_utf8 (dumps v).

(** *** [json.loads] *)

Definition is_ws (c : ascii) : bool :=
  let n := nat_of_ascii c in
  (Nat.eqb n 32 || Nat.eqb n 9 || Nat.eqb n 10 || Nat.eqb n 13)%bool.

Fixpoint skip_ws (s : string) : string :=
  match s with
  | String c s' => if is_ws c then skip_ws s' else s
  | EmptyString => s
  end.

Definition is_digit (c : ascii) : bool :=
  let n := nat_of_ascii c in (Nat.leb 48 n && Nat.leb n 57)%bool.

Definition digit_val (c : ascii) : Z := Z.of_nat (nat_of_ascii c - 48)%nat.

(** The longest prefix of digits, and what follows it. *)
Fixpoint take_digits (s : string) : string * string :=
  match s with
  | String c s' =>
      if is_digit c then
        let '(ds, r) := take_digits s' in (String c ds, r)
      else (EmptyString, s)
  | EmptyString => (EmptyString, s)
  end.

Fixpoint horner (acc : Z) (s : string) : Z :=
  match s with
  | EmptyString => acc
  | String c s' => horner (10 * acc + digit_val c) s'
  end.

Definition hex_val (c : ascii) : option nat :=
  let n := nat_of_ascii c in
  if is_digit c then Some (n - 48)%nat
  else if (Nat.leb 97 n && Nat.leb n 102)%bool then Some (n - 87)%nat
  else if (Nat.leb 65 n && Nat.leb n 70)%bool then Some (n - 55)%nat
  else None.

Definition hex4 (h1 h2 h3 h4 : ascii) : option nat :=
  match hex_val h1, hex_val h2, hex_val h3, hex_val h4 with
  | Some a, Some b, Some c, Some d => Some (((a * 16 + b) * 16 + c) * 16 + d)%nat
  | _, _, _, _ => None
  end.

Definition unescape (e : ascii) : option ascii :=
  if Ascii.eqb e quote then Some quote
  else if Ascii.eqb e backslash then Some backslash
  else if Ascii.eqb e "/" then Some "/"%char
  else if Ascii.eqb e "b" then Some (ascii_of_nat 8)
  else if Ascii.eqb e "f" then Some (ascii_of_nat 12)
  else if Ascii.eqb e "n" then Some (ascii_of_nat 10)
  else if Ascii.eqb e "r" then Some (ascii_of_nat 13)
  else if Ascii.eqb e "t" then Some (ascii_of_nat 9)
  else None.

Definition cons_char (c : ascii) (r : option (string * string))
    : option (string * string) :=
  match r with
  | Some (s, rest) => Some (String c s, rest)
  | None => None
  end.

(** A string, from the character after its opening quote. *)
Fixpoint scan_string (s : string) : option (string * string) :=
  match s with
  | EmptyString => None
  | String c r =>
      if Ascii.eqb c quote then Some (EmptyString, r)
      else if Ascii.eqb c backslash then
        match r with
        | EmptyString => None
        | String e r1 =>
            if Ascii.eqb e "u" then
              match r1 with
              | String h1 (String h2 (String h3 (String h4 r2))) =>
                  match hex4 h1 h2 h3 h4 with
                  | Some n =>
                      if Nat.ltb n 256
                      then cons_char (ascii_of_nat n) (scan_string r2)
                      else None
                  | None => None
                  end
              | _ => None
              end
            else
              match unescape e with
              | Some ch => cons_char ch (scan_string r1)
              | None => None
              end
        end
      else if Nat.ltb (nat_of_ascii c) 32 then None
      else cons_char c (scan_string r)
  end.

(** The fraction [.digits] of a number, if any. *)
Definition scan_frac (r : string) : option string * string :=
  match r with
  | String c r' =>
      if Ascii.eqb c "." then
        let '(fd, r'') := take_digits r' in
        match fd with
        | EmptyString => (None, r)
        | _ => (Some fd, r'')
        end
      else (None, r)
  | EmptyString => (None, r)
  end.

(** The exponent [e+digits] of a number, if any. *)
Definition scan_exp (r : string) : option Z * string :=
  match r with
  | String c r' =>
      if (Ascii.eqb c "e" || Ascii.eqb c "E")%bool then
        let '(neg, r1) :=
          match r' with
          | String sg r'' =>
              if Ascii.eqb sg "-" then (true, r'')
              else if Ascii.eqb sg "+" then (false, r'')
              else (false, r')
          | EmptyString => (false, r')
          end in
        let '(ed, r2) := take_digits r1 in
        match ed with
        | EmptyString => (None, r)
        | _ => (Some (if neg then - horner 0 ed else horner 0 ed), r2)
        end
      else (None, r)
  | EmptyString => (None, r)
  end.

(** After the integer part [ds]: an [int] unless a fraction or an
    exponent follows, then the [float] the numeral reads as. *)
Definition finish_number (neg : bool) (ds r : string)
    : option (json * string) :=
  let '(frac, r1) := scan_frac r in
  let '(exp, r2) := scan_exp r1 in
  match frac, exp with
  | None, None =>
      Some (JInt (if neg then - horner 0 ds else horner 0 ds), r2)
  | _, _ =>
      let fd := match frac with Some fd => fd | None => EmptyString end in
      let e := match exp with Some e => e | None => 0 end in
      let x := float_of_scaled (horner (horner 0 ds) fd)
                               (Z.of_nat (String.length fd) - e) in
      Some (JFloat (if neg then Qred (- x) else x), r2)
  end.

Definition parse_number (s : string) : option (json * string) :=
  let '(neg, s1) :=
    match s with
    | String c r => if Ascii.eqb c "-" then (true, r) else (false, s)
    | EmptyString => (false, s)
    end in
  match s1 with
  | String c r =>
      if Ascii.eqb c "0" then finish_number neg "0" r
      else if is_digit c then
        let '(ds, r') := take_digits s1 in finish_number neg ds r'
      else None
  | EmptyString => None
  end.

Fixpoint all_digits (s : string) : bool :=
  match s with
  | EmptyString => true
  | String c s' => is_digit c && all_digits s'
  end.

(** What may follow a number: anything but a digit, a point or an
    exponent mark. *)
Definition ends_number (rest : string) : bool :=
  match rest with
  | EmptyString => true
  | String c _ =>
      negb (is_digit c || Ascii.eqb c "." || Ascii.eqb c "e"
            || Ascii.eqb c "E")
  end.

Definition no_digit_head (r : string) : bool :=
  match r with
  | EmptyString => true
  | String c _ => negb (is_digit c)
  end.

(** [dict(pairs)]: a repeated key keeps its place and takes the last
    value. *)
Fixpoint dict_set (k : string) (v : json) (d : list (string * json))
    : list (string * json) :=
  match d with
  | [] => [(k, v)]
  | (k', v') :: d' =>
      if String.eqb k' k then (k, v) :: d' else (k', v') :: dict_set k v d'
  end.

Fixpoint parse_value (fuel : nat) (s : string) {struct fuel}
    : option (json * string) :=
  match fuel with
  | O => None
  | S fuel' =>
      match s with
      | EmptyString => None
      | String c r =>
          if Ascii.eqb c quote then
            match scan_string r with
            | Some (str, r') => Some (JStr str, r')
            | None => None
            end
          else if Ascii.eqb c "{" then
            match skip_ws r with
            | String c' r' =>
                if Ascii.eqb c' "}" then Some (JDict [], r')
                else parse_members fuel' (skip_ws r) []
            | EmptyString => None
            end
          else if Ascii.eqb c "[" then
            match skip_ws r with
            | String c' r' =>
                if Ascii.eqb c' "]" then Some (JList [], r')
                else parse_elements fuel' (skip_ws r) []
            | EmptyString => None
            end
          else if Ascii.eqb c "n" then
            match r with
            | String "u" (String "l" (String "l" r')) => Some (JNull, r')
            | _ => None
            end
          else if Ascii.eqb c "t" then
            match r with
            | String "r" (String "u" (String "e" r')) => Some (JBool true, r')
            | _ => None
            end
          else if Ascii.eqb c "f" then
            match r with
            | String "a" (String "l" (String "s" (String "e" r'))) =>
                Some (JBool false, r')
            | _ => None
            end
          else parse_number s
      end
  end

with parse_elements (fuel : nat) (s : string) (acc : list json)
    {struct fuel} : option (json * string) :=
  match fuel with
  | O => None
  | S fuel' =>
      match parse_value fuel' s with
      | Some (v, r) =>
          match skip_ws r with
          | String c r' =>
              if Ascii.eqb c "]" then Some (JList (acc ++ [v]), r')
              else if Ascii.eqb c "," then
                parse_elements fuel' (skip_ws r') (acc ++ [v])
              else None
          | EmptyString => None
          end
      | None => None
      end
  end

with parse_members (fuel : nat) (s : string) (acc : list (string * json))
    {struct fuel} : option (json * string) :=
  match fuel with
  | O => None
  | S fuel' =>
      match s with
      | String c r =>
          if Ascii.eqb c quote then
            match scan_string r with
            | Some (k, r1) =>
                match skip_ws r1 with
                | String c1 r2 =>
                    if Ascii.eqb c1 ":" then
                      match parse_value fuel' (skip_ws r2) with
                      | Some (v, r3) =>
                          match skip_ws r3 with
                          | String c3 r4 =>
                              if Ascii.eqb c3 "}" then
                                Some (JDict (dict_set k v acc), r4)
                              else if Ascii.eqb c3 "," then
                                parse_members fuel' (skip_ws r4)
                                              (dict_set k v acc)
                              else None
                          | EmptyString => None
                          end
                      | None => None
                      end
                    else None
                | EmptyString => None
                end
            | None => None
            end
          else None
      | EmptyString => None
      end
  end.

(** [json.loads] of UTF-8 bytes: one value, white space around it, and
    nothing else. *)
Definition loads (bs : list Byte.byte) : option json :=
  match decode_utf8 bs with
  | None => None
  | Some s =>
      let s := skip_ws s in
      match parse_value (S (String.length s)) s with
      | Some (v, r) =>
          match skip_ws r with
          | EmptyString => Some v
          | _ => None
          end
      | None => None
      end
  end.

(** What follows a value inside a document: a separator or the end. *)
Definition sep_head (r : string) : bool :=
  match r with
  | EmptyString => true
  | String c _ => (Ascii.eqb c "," || Ascii.eqb c "}" || Ascii.eqb c "]")%bool
  end.

(** [x] is read back from what [emit] writes for it, given fuel [fv]. *)
Definition parses (x : json) (fv : nat) : Prop :=
  forall f r, (fv <= f)%nat -> sep_head r = true ->
              parse_value f (emit x r) = Some (x, r).

Definition set_pair (a : list (string * json)) (kx : string * json) :=
  dict_set (fst kx) (snd kx) a.

(** [emit x] writes at least [n] characters. *)
Definition grows_by (x : json) (n : nat) : Prop :=
  forall r, (n + String.length r <= String.length (emit x r))%nat.

End Json.
Import Json.

(** * Facts about the float model *)

Section FloatFacts.
Local Open Scope Q_scope.


Lemma inject_Z_minus (a b : Z) : inject_Z (a - b) = inject_Z a - inject_Z b.
Proof.
  unfold Z.sub, Qminus. now rewrite inject_Z_plus, inject_Z_opp.
Qed.

Lemma floor_bounds (x : Q) :
  inject_Z (Qfloor x) <= x /\ x < inject_Z (Qfloor x) + 1.
Proof.
  split; [apply Qfloor_le|].
  pose proof (Qlt_floor x) as H. rewrite inject_Z_plus in H. exact H.
Qed.

Lemma rne_cases (x : Q) :
  let f := Qfloor x in
  (rne x = f /\ x - inject_Z f <= 1 # 2) \/
  (rne x = (f + 1)%Z /\ 1 # 2 <= x - inject_Z f).
Proof.
  intro f. unfold rne. fold f.
  destruct (Qcompare_spec (x - inject_Z f) (1 # 2)) as [E|E|E].
  - destruct (Z.even f); [left|right]; split; auto; rewrite E; apply Qle_refl.
  - left; split; auto. apply Qlt_le_weak, E.
  - right; split; auto. apply Qlt_le_weak, E.
Qed.

Lemma rne_error (x : Q) :
  x - (1 # 2) <= inject_Z (rne x) /\ inject_Z (rne x) <= x + (1 # 2).
Proof.
  destruct (floor_bounds x) as [H1 H2].
  destruct (rne_cases x) as [[-> H]|[-> H]]; cbv zeta in H.
  - split; lra.
  - rewrite inject_Z_plus. change (inject_Z 1) with 1. split; lra.
Qed.

Lemma floor_unique (x : Q) (k : Z) :
  inject_Z k <= x -> x < inject_Z k + 1 -> Qfloor x = k.
Proof.
  intros H1 H2. destruct (floor_bounds x) as [F1 F2].
  assert (A : (Qfloor x < k + 1)%Z).
  { rewrite Zlt_Qlt, inject_Z_plus. change (inject_Z 1) with 1. lra. }
  assert (B : (k < Qfloor x + 1)%Z).
  { rewrite Zlt_Qlt, inject_Z_plus. change (inject_Z 1) with 1. lra. }
  lia.
Qed.

Lemma rne_near (x : Q) (k : Z) :
  inject_Z k - (1 # 2) < x -> x < inject_Z k + (1 # 2) -> rne x = k.
Proof.
  intros H1 H2.
  destruct (Qlt_le_dec x (inject_Z k)) as [L|L].
  - assert (F : Qfloor x = (k - 1)%Z).
    { apply floor_unique; rewrite inject_Z_minus;
        change (inject_Z 1) with 1; lra. }
    destruct (rne_cases x) as [[E H]|[E H]]; cbv zeta in H; rewrite F in *.
    + rewrite inject_Z_minus in H. change (inject_Z 1) with 1 in H. lra.
    + rewrite E. lia.
  - assert (F : Qfloor x = k) by (apply floor_unique; lra).
    destruct (rne_cases x) as [[E H]|[E H]]; cbv zeta in H; rewrite F in *.
    + exact E.
    + lra.
Qed.

Lemma rne_inject (n : Z) : rne (inject_Z n) = n.
Proof.
  apply rne_near; lra.
Qed.

Lemma rne_comp (x y : Q) : x == y -> rne x = rne y.
Proof.
  intro E. unfold rne. rewrite (Qfloor_comp _ _ E).
  rewrite (Qcompare_comp (x - inject_Z (Qfloor y)) (y - inject_Z (Qfloor y))
             ltac:(rewrite E; reflexivity) (1#2) (1#2) ltac:(reflexivity)).
  reflexivity.
Qed.

Lemma rne_mono (x y : Q) : x <= y -> (rne x <= rne y)%Z.
Proof.
  intro L.
  pose proof (Qfloor_resp_le _ _ L) as F.
  destruct (Z.eq_dec (Qfloor x) (Qfloor y)) as [E|N].
  - unfold rne. rewrite E.
    destruct (Qcompare_spec (x - inject_Z (Qfloor y)) (1 # 2)) as [A|A|A];
    destruct (Qcompare_spec (y - inject_Z (Qfloor y)) (1 # 2)) as [B|B|B];
    try lra; destruct (Z.even (Qfloor y)); lia.
  - assert (rne x <= Qfloor x + 1)%Z
      by (destruct (rne_cases x) as [[-> _]|[-> _]]; lia).
    assert (Qfloor y <= rne y)%Z
      by (destruct (rne_cases y) as [[-> _]|[-> _]]; lia).
    lia.
Qed.



Lemma two_neq0 : ~ 2 == 0.
Proof. discriminate. Qed.

Lemma pow2_pos (e : Z) : 0 < pow2 e.
Proof. apply Qpower_0_lt. reflexivity. Qed.

Lemma pow2_add (a b : Z) : pow2 (a + b) == pow2 a * pow2 b.
Proof. apply Qpower_plus, two_neq0. Qed.

Lemma pow2_succ (e : Z) : pow2 (e + 1) == 2 * pow2 e.
Proof. rewrite pow2_add. change (pow2 1) with 2. ring. Qed.

Lemma pow2_le (a b : Z) : (a <= b)%Z -> pow2 a <= pow2 b.
Proof. intro H. apply Qpower_le_compat_l; [exact H | discriminate]. Qed.

Lemma pow2_lt (a b : Z) : (a < b)%Z -> pow2 a < pow2 b.
Proof. intro H. apply Qpower_lt_compat_l; [exact H | reflexivity]. Qed.

Lemma pow2_inject (n : Z) : (0 <= n)%Z -> pow2 n == inject_Z (2 ^ n).
Proof. intro H. unfold pow2. now rewrite Zpower_Qpower. Qed.

Lemma pow2_cancel (a : Z) : pow2 (- a) * pow2 a == 1.
Proof. rewrite <- pow2_add. now replace (- a + a)%Z with 0%Z by lia. Qed.

Lemma log2_bounds_Q (n : Z) :
  (0 < n)%Z ->
  pow2 (Z.log2 n) <= inject_Z n /\ inject_Z n < 2 * pow2 (Z.log2 n).
Proof.
  intro H. destruct (Z.log2_spec n H) as [L U].
  pose proof (Z.log2_nonneg n) as P.
  rewrite <- pow2_succ, !pow2_inject by lia.
  rewrite <- Zle_Qle, <- Zlt_Qlt. replace (Z.log2 n + 1)%Z with (Z.succ (Z.log2 n)) by lia. auto.
Qed.

Lemma ilog2_spec (x : Q) :
  0 < x -> pow2 (ilog2 x) <= x /\ x < pow2 (ilog2 x + 1).
Proof.
  intro Hx. destruct x as [n d].
  assert (Hn : (0 < n)%Z).
  { unfold Qlt in Hx; simpl in Hx. lia. }
  destruct (log2_bounds_Q n Hn) as [An Bn].
  destruct (log2_bounds_Q (Z.pos d) eq_refl) as [Ad Bd].
  unfold ilog2. cbn [Qnum Qden].
  set (a := Z.log2 n) in *. set (b := Z.log2 (Z.pos d)) in *.
  assert (E : pow2 (a - b) * pow2 b == pow2 a).
  { rewrite <- pow2_add. now replace (a - b + b)%Z with a by lia. }
  assert (X : (n # d) * inject_Z (Z.pos d) == inject_Z n).
  { rewrite Qmake_Qdiv. field. discriminate. }
  pose proof (pow2_pos a). pose proof (pow2_pos b). pose proof (pow2_pos (a - b)).
  assert (0 < inject_Z (Z.pos d)) by reflexivity.
  set (x := n # d) in *.
  set (D := inject_Z (Z.pos d)) in *. set (N := inject_Z n) in *.
  destruct (Qle_bool (pow2 (a - b)) x) eqn:T.
  - apply Qle_bool_iff in T. split; [exact T|].
    rewrite pow2_succ.
    set (P := pow2 (a - b)) in *. set (A := pow2 a) in *. set (B := pow2 b) in *.
    nra.
  - assert (T' : x < pow2 (a - b)).
    { apply Qnot_le_lt. intro C. apply Qle_bool_iff in C. congruence. }
    replace (a - b - 1 + 1)%Z with (a - b)%Z by lia. split; [|exact T'].
    assert (E2 : 2 * pow2 (a - b - 1) == pow2 (a - b)).
    { rewrite <- pow2_succ. now replace (a - b - 1 + 1)%Z with (a - b)%Z by lia. }
    pose proof (pow2_pos (a - b - 1)).
    set (P := pow2 (a - b)) in *. set (A := pow2 a) in *. set (B := pow2 b) in *.
    set (P' := pow2 (a - b - 1)) in *.
    nra.
Qed.



Lemma ilog2_unique (x : Q) (e : Z) :
  pow2 e <= x -> x < pow2 (e + 1) -> ilog2 x = e.
Proof.
  intros L U.
  assert (Hx : 0 < x) by (pose proof (pow2_pos e); lra).
  destruct (ilog2_spec x Hx) as [L' U'].
  destruct (Z.lt_trichotomy (ilog2 x) e) as [C|[C|C]]; [|exact C|].
  - pose proof (pow2_le (ilog2 x + 1) e ltac:(lia)). lra.
  - pose proof (pow2_le (e + 1) (ilog2 x) ltac:(lia)). lra.
Qed.

Lemma ilog2_mono (x y : Q) : 0 < x -> x <= y -> (ilog2 x <= ilog2 y)%Z.
Proof.
  intros Hx L.
  destruct (ilog2_spec x Hx) as [Lx Ux].
  destruct (ilog2_spec y ltac:(lra)) as [Ly Uy].
  destruct (Z_le_gt_dec (ilog2 x) (ilog2 y)) as [C|C]; [exact C|].
  pose proof (pow2_le (ilog2 y + 1) (ilog2 x) ltac:(lia)). lra.
Qed.

Lemma scaled_back (x : Q) (s : Z) : x * pow2 (- s) * pow2 s == x.
Proof. rewrite <- Qmult_assoc, pow2_cancel. ring. Qed.

Lemma scale_error (m t p x : Q) :
  0 < p -> t * p == x -> t - (1 # 2) <= m -> m <= t + (1 # 2) ->
  x - p * (1 # 2) <= m * p /\ m * p <= x + p * (1 # 2).
Proof.
  intros P E A B.
  assert (A' : (t - (1 # 2)) * p <= m * p)
    by (apply Qmult_le_compat_r; lra).
  assert (B' : m * p <= (t + (1 # 2)) * p)
    by (apply Qmult_le_compat_r; lra).
  assert (E1 : (t - (1 # 2)) * p == x - p * (1 # 2)) by (rewrite <- E; ring).
  assert (E2 : (t + (1 # 2)) * p == x + p * (1 # 2)) by (rewrite <- E; ring).
  rewrite <- E1, <- E2. split; assumption.
Qed.

Lemma round_pos_error (x : Q) :
  let s := ulp_exp x in
  x - pow2 s * (1 # 2) <= round_pos x /\ round_pos x <= x + pow2 s * (1 # 2).
Proof.
  intro s. unfold round_pos. fold s.
  destruct (rne_error (x * pow2 (- s))) as [A B].
  exact (scale_error _ _ _ _ (pow2_pos s) (scaled_back x s) A B).
Qed.

Lemma round_pos_nonneg (x : Q) : 0 <= x -> 0 <= round_pos x.
Proof.
  intro H. unfold round_pos.
  apply Qmult_le_0_compat; [|apply Qlt_le_weak, pow2_pos].
  change 0 with (inject_Z 0). rewrite <- Zle_Qle.
  rewrite <- (rne_inject 0). apply rne_mono.
  apply Qmult_le_0_compat; [exact H | apply Qlt_le_weak, pow2_pos].
Qed.

Lemma round_pos_upper (x : Q) (e : Z) :
  0 <= x -> x <= pow2 (e + 1) -> (Z.max (ilog2 x) emin <= e)%Z ->
  round_pos x <= pow2 (e + 1).
Proof.
  intros Hx U M. unfold round_pos.
  set (s := ulp_exp x).
  assert (Hs : (0 <= e + 1 - s)%Z) by (unfold s, ulp_exp; lia).
  assert (E : pow2 (e + 1) == inject_Z (2 ^ (e + 1 - s)) * pow2 s).
  { rewrite <- pow2_inject, <- pow2_add by exact Hs.
    now replace (e + 1 - s + s)%Z with (e + 1)%Z by lia. }
  rewrite E. apply Qmult_le_compat_r; [|apply Qlt_le_weak, pow2_pos].
  rewrite <- Zle_Qle. rewrite <- (rne_inject (2 ^ (e + 1 - s))).
  apply rne_mono. rewrite <- pow2_inject by exact Hs.
  replace (e + 1 - s)%Z with ((e + 1) + - s)%Z by lia. rewrite pow2_add.
  apply Qmult_le_compat_r; [exact U | apply Qlt_le_weak, pow2_pos].
Qed.

Lemma round_pos_lower (x : Q) (e : Z) :
  pow2 e <= x -> (Z.max (ilog2 x) emin <= e)%Z -> pow2 e <= round_pos x.
Proof.
  intros L M. unfold round_pos.
  set (s := ulp_exp x).
  assert (Hs : (0 <= e - s)%Z) by (unfold s, ulp_exp; lia).
  assert (E : pow2 e == inject_Z (2 ^ (e - s)) * pow2 s).
  { rewrite <- pow2_inject, <- pow2_add by exact Hs.
    now replace (e - s + s)%Z with e by lia. }
  rewrite E. apply Qmult_le_compat_r; [|apply Qlt_le_weak, pow2_pos].
  rewrite <- Zle_Qle. rewrite <- (rne_inject (2 ^ (e - s))) at 1.
  apply rne_mono. rewrite <- pow2_inject by exact Hs.
  replace (e - s)%Z with (e + - s)%Z by lia. rewrite pow2_add.
  apply Qmult_le_compat_r; [exact L | apply Qlt_le_weak, pow2_pos].
Qed.

Lemma round_pos_zero (x : Q) : x == 0 -> round_pos x == 0.
Proof.
  intro E. unfold round_pos.
  rewrite (rne_comp (x * pow2 (- ulp_exp x)) (inject_Z 0)).
  - rewrite rne_inject. ring.
  - apply Qeq_trans with (0 * pow2 (- ulp_exp x)).
    + apply Qmult_comp; [exact E | reflexivity].
    + apply Qmult_0_l.
Qed.

Lemma round_pos_mono (x y : Q) :
  0 <= x -> x <= y -> round_pos x <= round_pos y.
Proof.
  intros Hx L.
  destruct (Qeq_dec x 0) as [Z0|NZ].
  { rewrite (round_pos_zero x Z0). apply round_pos_nonneg. lra. }
  assert (Px : 0 < x).
  { destruct (Qlt_le_dec 0 x) as [C|C]; [exact C|]. exfalso. apply NZ. lra. }
  pose proof (ilog2_mono x y Px L) as M.
  destruct (Z.eq_dec (Z.max (ilog2 x) emin) (Z.max (ilog2 y) emin)) as [E|N].
  - unfold round_pos, ulp_exp. rewrite E.
    apply Qmult_le_compat_r; [|apply Qlt_le_weak, pow2_pos].
    rewrite <- Zle_Qle. apply rne_mono.
    apply Qmult_le_compat_r; [exact L | apply Qlt_le_weak, pow2_pos].
  - destruct (ilog2_spec x Px) as [Lx Ux].
    destruct (ilog2_spec y ltac:(lra)) as [Ly Uy].
    set (ex := Z.max (ilog2 x) emin) in *.
    apply Qle_trans with (pow2 (ex + 1)).
    + apply round_pos_upper; [lra| |fold ex; lia].
      pose proof (pow2_le (ilog2 x + 1) (ex + 1) ltac:(lia)). lra.
    + apply Qle_trans with (pow2 (ilog2 y)).
      * apply pow2_le. lia.
      * apply round_pos_lower; [exact Ly | lia].
Qed.

Lemma rnd_mono (x y : Q) : x <= y -> rnd x <= rnd y.
Proof.
  intro L. unfold rnd. rewrite !Qred_correct.
  destruct (Qle_bool 0 x) eqn:Sx; destruct (Qle_bool 0 y) eqn:Sy.
  - apply Qle_bool_iff in Sx. now apply round_pos_mono.
  - apply Qle_bool_iff in Sx.
    assert (~ 0 <= y) by (rewrite <- Qle_bool_iff; congruence). lra.
  - apply Qle_bool_iff in Sy.
    assert (Nx : ~ 0 <= x) by (rewrite <- Qle_bool_iff; congruence).
    pose proof (round_pos_nonneg (- x) ltac:(lra)).
    pose proof (round_pos_nonneg y Sy). lra.
  - assert (Nx : ~ 0 <= x) by (rewrite <- Qle_bool_iff; congruence).
    assert (Ny : ~ 0 <= y) by (rewrite <- Qle_bool_iff; congruence).
    pose proof (round_pos_mono (- y) (- x) ltac:(lra) ltac:(lra)). lra.
Qed.

Lemma rnd_error_1_1024 (x : Q) :
  1 <= x -> x < 1024 ->
  x - pow2 (-44) <= rnd x /\ rnd x <= x + pow2 (-44).
Proof.
  intros L U. unfold rnd. rewrite Qred_correct.
  assert (S : Qle_bool 0 x = true) by (apply Qle_bool_iff; lra).
  rewrite S.
  destruct (round_pos_error x) as [A B]. cbv zeta in A, B.
  assert (I0 : (0 <= ilog2 x)%Z).
  { rewrite <- (ilog2_unique 1 0); [apply ilog2_mono; lra | apply Qle_refl | reflexivity]. }
  assert (I9 : (ilog2 x <= 9)%Z).
  { destruct (ilog2_spec x ltac:(lra)) as [Lx _].
    destruct (Z_le_gt_dec (ilog2 x) 9) as [C|C]; [exact C|].
    pose proof (pow2_le 10 (ilog2 x) ltac:(lia)) as P.
    change (pow2 10) with 1024 in P. lra. }
  assert (P : pow2 (ulp_exp x) * (1 # 2) <= pow2 (-44)).
  { pose proof (pow2_le (ulp_exp x) (-43) ltac:(unfold ulp_exp, emin; lia)) as P.
    pose proof (pow2_succ (-44)) as E. change (-44 + 1)%Z with (-43)%Z in E.
    generalize dependent (pow2 (-43)). generalize dependent (pow2 (-44)).
    generalize (pow2 (ulp_exp x)). intros. lra. }
  generalize dependent (pow2 (-44)). generalize dependent (pow2 (ulp_exp x)).
  intros. split; lra.
Qed.



Lemma rnd_0 : rnd 0 = 0.
Proof. reflexivity. Qed.
Lemma rnd_1 : rnd 1 = 1.
Proof. vm_compute. reflexivity. Qed.
Lemma rnd_999 : rnd 999 = 999.
Proof. vm_compute. reflexivity. Qed.
Lemma rnd_1000 : rnd 1000 = 1000.
Proof. vm_compute. reflexivity. Qed.
Lemma fsub_1000_1 : fsub 1000 1 = 999.
Proof. vm_compute. reflexivity. Qed.

Lemma rnd_between (a b x : Q) :
  rnd a = a -> rnd b = b -> a <= x -> x <= b -> a <= rnd x /\ rnd x <= b.
Proof.
  intros Ea Eb L U. split.
  - rewrite <- Ea. apply rnd_mono, L.
  - rewrite <- Eb. apply rnd_mono, U.
Qed.

Lemma uniform_1_1000_range (r : Q) :
  0 <= r -> r <= 1 ->
  1 <= fadd 1 (fmul (fsub 1000 1) r) /\ fadd 1 (fmul (fsub 1000 1) r) <= 1000.
Proof.
  intros L U. rewrite fsub_1000_1. unfold fadd, fmul.
  destruct (rnd_between 0 999 (999 * r) rnd_0 rnd_999 ltac:(lra) ltac:(lra)) as [A B].
  apply (rnd_between 1 1000); [exact rnd_1 | exact rnd_1000 | lra | lra].
Qed.

Lemma py_round2_unfold (x : Q) :
  py_round x 2 = rnd (inject_Z (rne (x * 100)) / 100).
Proof. reflexivity. Qed.

Lemma hundredths_range (k : Z) :
  (100 <= k <= 100000)%Z -> 1 <= inject_Z k / 100 /\ inject_Z k / 100 <= 1000.
Proof.
  intros [L U]. rewrite Zle_Qle in L, U.
  change (inject_Z 100) with 100 in L. change (inject_Z 100000) with 100000 in U.
  unfold Qdiv. change (/ 100) with (1 # 100). generalize dependent (inject_Z k).
  intros. split; lra.
Qed.

Lemma rne_hundred_range (x : Q) :
  1 <= x -> x <= 1000 -> (100 <= rne (x * 100) <= 100000)%Z.
Proof.
  intros L U. split.
  - assert (H : inject_Z 100 <= x * 100)
      by (change (inject_Z 100) with 100; lra).
    apply rne_mono in H. now rewrite rne_inject in H.
  - assert (H : x * 100 <= inject_Z 100000)
      by (change (inject_Z 100000) with 100000; lra).
    apply rne_mono in H. now rewrite rne_inject in H.
Qed.

Lemma py_round2_range (x : Q) :
  1 <= x -> x <= 1000 -> 1 <= py_round x 2 /\ py_round x 2 <= 1000.
Proof.
  intros L U. rewrite py_round2_unfold.
  destruct (hundredths_range _ (rne_hundred_range x L U)) as [A B].
  apply (rnd_between 1 1000); [exact rnd_1 | exact rnd_1000 | exact A | exact B].
Qed.

Lemma py_round2_idem (x : Q) :
  1 <= x -> x <= 1000 -> py_round (py_round x 2) 2 = py_round x 2.
Proof.
  intros L U. rewrite (py_round2_unfold (py_round x 2)).
  rewrite (py_round2_unfold x) at 2. f_equal. f_equal. f_equal.
  rewrite py_round2_unfold.
  set (k := rne (x * 100)).
  destruct (hundredths_range k (rne_hundred_range x L U)) as [A B].
  destruct (rnd_error_1_1024 (inject_Z k / 100) A ltac:(lra)) as [E1 E2].
  assert (P : pow2 (-44) * 100 < 1 # 2) by reflexivity.
  assert (X : inject_Z k / 100 * 100 == inject_Z k) by (field; discriminate).
  generalize dependent (pow2 (-44)). generalize dependent (inject_Z k / 100).
  intros q A B X e E1 E2 P.
  apply rne_near; generalize dependent (rnd q); intros; lra.
Qed.



Lemma py_int_nonneg (x : Q) : 0 <= x -> py_int x = Qfloor x.
Proof.
  intro H. destruct x as [n d]. unfold py_int, Qfloor. cbn [Qnum Qden].
  apply Z.quot_div_nonneg; [|reflexivity].
  unfold Qle in H; simpl in H. lia.
Qed.

Lemma py_int_neg (x : Q) : x <= 0 -> py_int x = Qceiling x.
Proof.
  intro H. destruct x as [n d]. unfold py_int, Qceiling, Qfloor.
  cbn [Qnum Qden Qopp].
  assert (Hn : (n <= 0)%Z) by (unfold Qle in H; simpl in H; lia).
  rewrite <- (Z.opp_involutive n) at 1. rewrite Z.quot_opp_l by discriminate.
  f_equal. apply Z.quot_div_nonneg; [lia | reflexivity].
Qed.

Lemma py_int_mono (x y : Q) : x <= y -> (py_int x <= py_int y)%Z.
Proof.
  intro L.
  destruct (Qlt_le_dec x 0) as [Hx|Hx]; destruct (Qlt_le_dec y 0) as [Hy|Hy].
  - rewrite !py_int_neg by lra. now apply Qceiling_resp_le.
  - rewrite py_int_neg, py_int_nonneg by lra.
    apply Z.le_trans with 0%Z.
    + change 0%Z with (Qceiling 0). apply Qceiling_resp_le. lra.
    + change 0%Z with (Qfloor 0). now apply Qfloor_resp_le.
  - lra.
  - rewrite !py_int_nonneg by lra. now apply Qfloor_resp_le.
Qed.

Lemma ms_at_mono (env : Env) (i j : nat) :
  clock_tape env i <= clock_tape env j -> (ms_at env i <= ms_at env j)%Z.
Proof.
  intro L. unfold ms_at, fmul. apply py_int_mono, rnd_mono.
  apply Qmult_le_compat_r; [exact L | discriminate].
Qed.

End FloatFacts.

(** * Reasoning about computations that return *)

Section Returns.
Context {A B : Type}.

Lemma returns_ret (a : A) env st (Q : A -> State -> Prop) :
  Q a st -> returns (ret a) env st Q.
Proof. intro H. exists a, st. split; [reflexivity | exact H]. Qed.

Lemma returns_bind (m : M A) (k : A -> M B) env st (Q : B -> State -> Prop) :
  returns m env st (fun a st' => returns (k a) env st' Q) ->
  returns (bind m k) env st Q.
Proof.
  intros (a & st' & E & b & st'' & E' & H).
  exists b, st''. split; [|exact H]. unfold bind. now rewrite E.
Qed.

Lemma returns_weaken (m : M A) env st (Q Q' : A -> State -> Prop) :
  returns m env st Q -> (forall a st', Q a st' -> Q' a st') ->
  returns m env st Q'.
Proof. intros (a & st' & E & H) W. exists a, st'. auto. Qed.

End Returns.

Lemma returns_draw env st (Q : N -> State -> Prop) :
  Q (rand_tape env (rpos st)) (next_draw st) -> returns draw env st Q.
Proof. intro H. eexists _, _. split; [reflexivity | exact H]. Qed.

Lemma returns_randint a b env st (Q : Z -> State -> Prop) :
  a <= b ->
  (forall n, a <= n <= b -> Q n (next_draw st)) ->
  returns (randint a b) env st Q.
Proof.
  intros L H. unfold randint.
  destruct (Z.ltb_spec b a) as [C|_]; [lia|].
  apply returns_bind, returns_draw, returns_ret, H.
  pose proof (Z.mod_pos_bound (Z.of_N (rand_tape env (rpos st))) (b - a + 1)).
  lia.
Qed.

Lemma returns_choice {A} (x : A) (l : list A) env st (Q : A -> State -> Prop) :
  Q (nth (N.to_nat (rand_tape env (rpos st) mod N.of_nat (List.length (x :: l))))
         (x :: l) x) (next_draw st) ->
  returns (choice (x :: l)) env st Q.
Proof.
  intro H. unfold choice. apply returns_bind, returns_draw, returns_ret, H.
Qed.

Lemma random_range (r : N) :
  (0 <= Z.of_N (r mod 2 ^ 53) # 2 ^ 53)%Q /\
  (Z.of_N (r mod 2 ^ 53) # 2 ^ 53 <= 1)%Q.
Proof.
  pose proof (N.mod_upper_bound r (2 ^ 53) ltac:(discriminate)) as H.
  apply N2Z.inj_lt in H.
  change (Z.of_N (2 ^ 53)) with (Z.pos (2 ^ 53)) in H.
  pose proof (N2Z.is_nonneg (r mod 2 ^ 53)) as P.
  unfold Qle; cbn [Qnum Qden].
  generalize dependent (Z.of_N (r mod 2 ^ 53)).
  generalize (Z.pos (2 ^ 53)). intros. lia.
Qed.

Lemma returns_uniform a b env st (Q : Q -> State -> Prop) :
  (forall r, (0 <= r)%Q -> (r <= 1)%Q ->
             Q (fadd a (fmul (fsub b a) r)) (next_draw st)) ->
  returns (uniform a b) env st Q.
Proof.
  intro H. unfold uniform, random.
  apply returns_bind, returns_bind, returns_draw, returns_ret, returns_ret.
  apply H; apply random_range.
Qed.

Lemma returns_now_ms env st (Q : Z -> State -> Prop) :
  Q (ms_at env (cpos st)) (next_tick st) -> returns now_ms env st Q.
Proof.
  intro H. unfold now_ms. apply returns_bind.
  eexists _, _. split; [reflexivity|]. apply returns_ret, H.
Qed.

Lemma advances_refl st : advances st st.
Proof. unfold advances. auto. Qed.

Lemma advances_trans st1 st2 st3 :
  advances st1 st2 -> advances st2 st3 -> advances st1 st3.
Proof. unfold advances. intuition (try congruence; lia). Qed.

Lemma advances_draw st : advances st (next_draw st).
Proof. unfold advances, next_draw; cbn. auto. Qed.

Lemma advances_tick st : advances st (next_tick st).
Proof. unfold advances, next_tick; cbn. auto. Qed.

Ltac adv :=
  repeat first
    [ apply advances_refl
    | (eapply advances_trans; [|apply advances_draw])
    | (eapply advances_trans; [|apply advances_tick]) ].

Lemma tag_cases env st :
  chosen_tag env st = "string" \/ chosen_tag env st = "number" \/
  chosen_tag env st = "integer" \/ chosen_tag env st = "boolean" \/
  chosen_tag env st = "timestamp".
Proof.
  unfold chosen_tag.
  pose proof (N.mod_upper_bound (rand_tape env (2 + rpos st)) 5
                ltac:(discriminate)) as H.
  destruct (N.to_nat (rand_tape env (2 + rpos st) mod 5))
    as [|[|[|[|[|k]]]]] eqn:E; cbn; auto.
  lia.
Qed.

Lemma loop_body_returns env acc st :
  returns (loop_body acc) env st (fun r st' =>
    exists c, r = acc ++ [c] /\ change_ok env c /\
              dataType c = chosen_tag env st /\ advances st st').
Proof.
  unfold loop_body.
  apply returns_bind, returns_randint; [lia|]. intros r Hr.
  apply returns_bind, returns_randint; [lia|]. intros c Hc.
  apply returns_bind. apply returns_choice.
  change (nth _ ("string" :: _) "string") with (chosen_tag env st).
  assert (Fin : forall v st',
            value_ok env (chosen_tag env st) v -> advances st st' ->
            returns (ret (acc ++ [mkChange r c v (chosen_tag env st)])) env st'
              (fun r0 st'0 => exists c0, r0 = acc ++ [c0] /\ change_ok env c0 /\
                 dataType c0 = chosen_tag env st /\ advances st st'0)).
  { intros v st' V Ad. apply returns_ret. eexists. split; [reflexivity|].
    split; [|split; [reflexivity | exact Ad]].
    unfold change_ok; cbn. split; [lia|]. split; [lia | exact V]. }
  destruct (tag_cases env st) as [T|[T|[T|[T|T]]]]; rewrite T in *;
    simpl (String.eqb _ _); cbv iota; apply returns_bind.
  - apply returns_bind, returns_randint; [lia|]. intros n Hn.
    apply returns_ret, Fin; [now constructor | adv].
  - apply returns_bind, returns_uniform. intros u L U.
    destruct (uniform_1_1000_range u L U) as [A1 A2].
    destruct (py_round2_range _ A1 A2) as [B1 B2].
    apply returns_ret, Fin; [|adv].
    constructor; auto. now apply py_round2_idem.
  - apply returns_bind, returns_randint; [lia|]. intros n Hn.
    apply returns_ret, Fin; [now constructor | adv].
  - apply returns_bind, returns_choice. apply returns_ret, Fin; [constructor | adv].
  - apply returns_bind, returns_now_ms. apply returns_ret, Fin; [constructor | adv].
Qed.
Lemma for_range_returns env n : forall acc st,
  returns (for_range n loop_body acc) env st (fun r st' =>
    exists cs, r = acc ++ cs /\ List.length cs = n /\
               Forall (change_ok env) cs /\ advances st st').
Proof.
  induction n as [|n IH]; intros acc st; cbn [for_range].
  - apply returns_ret. exists []. rewrite app_nil_r.
    repeat split; auto using advances_refl.
  - apply returns_bind.
    eapply returns_weaken; [apply loop_body_returns|].
    intros r st1 (c & -> & Hc & _ & A1).
    eapply returns_weaken; [apply IH|].
    intros r st2 (cs & -> & L & F & A2).
    exists (c :: cs). rewrite <- app_assoc. cbn.
    split; [reflexivity|]. split; [now rewrite L|].
    split; [now constructor|]. eapply advances_trans; eauto.
Qed.

(** What a call of the synthesizer returns, in terms of its inputs. *)
Lemma create_cell_update_message_returns env grid_id num_changes st :
  returns (create_cell_update_message grid_id num_changes) env st
    (fun b st' =>
       Forall (change_ok env) (changes b) /\
       List.length (changes b) = Z.to_nat num_changes /\
       gridId b = grid_id /\ eventType b = "CELL_UPDATE" /\
       advances st st' /\
       (exists i suffix,
           (cpos st <= i)%nat /\ cpos st' = S (S i) /\
           1000 <= suffix <= 9999 /\
           batchId b = ("batch_" ++ py_str (ms_at env i) ++ "_"
                                 ++ py_str suffix)%string /\
           timestamp b = ms_at env (S i))).
Proof.
  unfold create_cell_update_message.
  apply returns_bind.
  eapply returns_weaken; [apply for_range_returns|].
  intros r st1 (cs & -> & L & F & A1). cbn [app].
  apply returns_bind, returns_now_ms.
  apply returns_bind, returns_randint; [lia|]. intros suffix Hs.
  apply returns_bind, returns_now_ms.
  apply returns_ret. cbn.
  split; [exact F|]. split; [exact L|]. do 2 (split; [reflexivity|]).
  split; [eapply advances_trans; [exact A1|]; adv|].
  exists (cpos st1), suffix. destruct A1 as (_ & C & _).
  split; [exact C|]. split; [reflexivity|]. split; [lia|].
  split; reflexivity.
Qed.

Lemma value_ok_type env tag v :
  value_ok env tag v -> declared_type tag = Some (type_of v).
Proof. intros []; reflexivity. Qed.

(** C1: every call of the synthesizer returns a batch, and each of its
    changes has its row in [0,50), its column in [0,25) and a newValue of
    the runtime type its dataType tag declares (string, float, integer,
    boolean, and integer for "timestamp"). *)
Theorem changes_in_grid_and_typed grid_id num_changes env st :
  exists b st',
    create_cell_update_message grid_id num_changes env st = (Ret b, st') /\
    forall c, In c (changes b) ->
      0 <= row c < 50 /\ 0 <= column c < 25 /\
      declared_type (dataType c) = Some (type_of (newValue c)).
Proof.
  destruct (create_cell_update_message_returns env grid_id num_changes st)
    as (b & st' & E & F & _).
  exists b, st'. split; [exact E|]. intros c Hc.
  rewrite Forall_forall in F. destruct (F c Hc) as (R & C & V).
  repeat split; try lia. eapply value_ok_type, V.
Qed.

(** C10: every change tagged "number" carries a float between 1.0 and
    1000.0 that [round(_, 2)] leaves unchanged. *)
Theorem number_values_rounded grid_id num_changes env st :
  exists b st',
    create_cell_update_message grid_id num_changes env st = (Ret b, st') /\
    forall c, In c (changes b) -> dataType c = "number" ->
      exists v, newValue c = VFloat v /\
                (1 <= v)%Q /\ (v <= 1000)%Q /\ py_round v 2 = v.
Proof.
  destruct (create_cell_update_message_returns env grid_id num_changes st)
    as (b & st' & E & F & _).
  exists b, st'. split; [exact E|]. intros c Hc T.
  rewrite Forall_forall in F. destruct (F c Hc) as (_ & _ & V).
  rewrite T in V. inversion V; subst. eauto.
Qed.

(** C8: a call with count 1 whose draw forces the tag "integer" returns
    one change, tagged "integer", whose newValue is an integer between 1
    and 1000 inclusive. *)
Theorem forced_integer_in_range grid_id env st :
  chosen_tag env st = "integer" ->
  exists b st' c n,
    create_cell_update_message grid_id 1 env st = (Ret b, st') /\
    changes b = [c] /\ dataType c = "integer" /\
    newValue c = VInt n /\ 1 <= n <= 1000.
Proof.
  intro T. unfold create_cell_update_message.
  change (Z.to_nat 1) with 1%nat. cbn [for_range].
  destruct (loop_body_returns env [] st) as (r & st1 & E & c & -> & (_ & _ & V) & D & _).
  rewrite T in D. rewrite D in V. inversion V; subst.
  eexists _, _, c, n. unfold bind at 1 2. rewrite E. cbn.
  repeat split; auto; lia.
Qed.

(** * The run of [main] *)

Section PostRules.
Context {A B : Type}.

Lemma post_bind_returns (m : M A) (k : A -> M B) env st Q :
  returns m env st (fun a st' => post (k a) env st' Q) ->
  post (bind m k) env st Q.
Proof. intros (a & st' & E & H). unfold post, bind in *. now rewrite E. Qed.

Lemma post_bind_ext ev (k : unit -> M B) env st Q :
  (forall e, ext_tape env (xpos st) = Some e -> Q (Raise e) (entered ev st)) ->
  (ext_tape env (xpos st) = None -> post (k tt) env (entered ev st) Q) ->
  post (bind (ext_call ev) k) env st Q.
Proof.
  intros R N. unfold post, bind, ext_call in *.
  destruct (ext_tape env (xpos st)) as [e|]; cbn; auto.
Qed.

Lemma post_weaken (m : M A) env st (Q Q' : outcome A -> State -> Prop) :
  post m env st Q -> (forall o st', Q o st' -> Q' o st') -> post m env st Q'.
Proof. unfold post. auto. Qed.

End PostRules.

Lemma returns_load_producer env st p (Q : Producer -> State -> Prop) :
  producer st = Some p -> Q p st -> returns load_producer env st Q.
Proof.
  intros E H. exists p, st. split; [|exact H]. unfold load_producer. now rewrite E.
Qed.

Lemma batches_of_app l l' : batches_of (l ++ l') = batches_of l ++ batches_of l'.
Proof. apply flat_map_app. Qed.

Lemma closes_app l l' : closes (l ++ l') = (closes l + closes l')%nat.
Proof. unfold closes. now rewrite filter_app, length_app. Qed.

Lemma batch_inv_advances env st st' :
  batch_inv env st -> advances st st' -> batch_inv env st'.
Proof.
  intros (idx & F & S & B) (_ & C & _ & _ & L). exists idx. rewrite L.
  repeat split; auto. eapply Forall_impl; [|exact B]. cbn; intros; lia.
Qed.

Lemma batch_inv_quiet env ev st :
  quiet ev -> batch_inv env st -> batch_inv env (entered ev st).
Proof.
  intros Q (idx & F & S & B). exists idx. cbn [entered log cpos].
  rewrite batches_of_app.
  replace (batches_of [ev]) with (@nil Batch) by (destruct ev; cbn in *; tauto).
  rewrite app_nil_r. auto.
Qed.

Lemma sane_advances env p st st' :
  sane env p st -> advances st st' -> sane env p st'.
Proof.
  intros (I & L & C & P) Ad. pose proof Ad as (_ & _ & X & P' & L').
  split; [eapply batch_inv_advances; eauto|]. rewrite L', X, P'. auto.
Qed.

Lemma sane_quiet env p ev st :
  quiet ev -> sane env p st -> sane env p (entered ev st).
Proof.
  intros Q (I & L & C & P). split; [now apply batch_inv_quiet|].
  cbn [entered log xpos producer]. rewrite length_app, closes_app, L, C. cbn.
  repeat split; auto; try lia. destruct ev; cbn in *; tauto.
Qed.

Lemma StronglySorted_snoc {T} (R : T -> T -> Prop) l a :
  StronglySorted R l -> Forall (fun x => R x a) l -> StronglySorted R (l ++ [a]).
Proof.
  induction 1 as [|x l S IH F]; intro H; cbn.
  - repeat constructor.
  - inversion H; subst. constructor; [auto|].
    apply Forall_app. split; [exact F | repeat constructor; assumption].
Qed.

Lemma sane_send env p st1 st2 topic b key i :
  sane env p st1 -> advances st1 st2 ->
  (cpos st1 <= i)%nat -> cpos st2 = S (S i) -> batch_fact env b i ->
  sane env p (entered (EvSend topic b key) st2).
Proof.
  intros S1 Ad Ci C2 Fb.
  destruct (sane_advances _ _ _ _ S1 Ad) as (_ & L & C & P).
  destruct S1 as ((idx & F & S & B) & _). pose proof Ad as (_ & _ & _ & _ & L').
  split.
  - exists (idx ++ [i]). cbn [entered log cpos].
    rewrite batches_of_app, L'. cbn [batches_of flat_map app].
    split; [apply Forall2_app; [exact F | constructor; [exact Fb | constructor]]|].
    split.
    + apply StronglySorted_snoc; [exact S|].
      eapply Forall_impl; [|exact B]. cbn; intros; lia.
    + apply Forall_app. split; [|repeat constructor; lia].
      eapply Forall_impl; [|exact B]. cbn; intros; lia.
  - cbn [entered log xpos producer]. rewrite length_app, closes_app, L, C. cbn.
    repeat split; auto; lia.
Qed.

Lemma prior_none_entered env ev st :
  prior_none env st -> ext_tape env (xpos st) = None ->
  prior_none env (entered ev st).
Proof.
  intros N E j Hj. cbn in Hj.
  destruct (Nat.eq_dec j (xpos st)) as [->|D]; [exact E | apply N; lia].
Qed.

Lemma prior_none_advances env st st' :
  prior_none env st -> advances st st' -> prior_none env st'.
Proof. intros N (_ & _ & X & _) j Hj. apply N. now rewrite <- X. Qed.

(** One external call of the loop on a quiet event. *)
Lemma step_ext env p x0 fuel ev (k : unit -> M unit) st :
  sane env p st -> prior_none env st ->
  sane env p (entered ev st) ->
  (forall st', sane env p st' -> prior_none env st' ->
               xpos st' = S (xpos st) ->
               post (k tt) env st' (loop_post env p x0 fuel)) ->
  post (bind (ext_call ev) k) env st (loop_post env p x0 fuel).
Proof.
  intros S N S' K. apply post_bind_ext.
  - intros e E. split; [exact S'|]. exists (xpos st). split; [reflexivity|].
    split; [exact N | exact E].
  - intro E. apply K; [exact S' | now apply prior_none_entered | reflexivity].
Qed.

(** One library call of the loop that returns. *)
Lemma step_pure {A} env p (m : M A) (k : A -> M unit) st
    (R : A -> State -> Prop) Q :
  sane env p st -> prior_none env st ->
  returns m env st (fun a st' => R a st' /\ advances st st') ->
  (forall a st', R a st' -> advances st st' -> sane env p st' ->
                 prior_none env st' -> xpos st' = xpos st ->
                 post (k a) env st' Q) ->
  post (bind m k) env st Q.
Proof.
  intros S N Rm K. apply post_bind_returns.
  eapply returns_weaken; [exact Rm|]. cbn. intros a st' (Ra & Ad).
  apply K; auto.
  - eapply sane_advances; eauto.
  - eapply prior_none_advances; eauto.
  - now destruct Ad as (_ & _ & X & _).
Qed.

Ltac quiet_step :=
  apply step_ext;
  [ assumption | assumption | apply sane_quiet; [exact I | assumption] | ].

Lemma main_loop_post env p fuel : forall bc st,
  sane env p st -> prior_none env st ->
  post (main_loop fuel bc) env st (loop_post env p (xpos st) fuel).
Proof.
  induction fuel as [|fuel IH]; intros bc st Hsane Hnone.
  - cbn. unfold post, running; cbn. split; [exact Hsane|]. split; [lia | exact Hnone].
  - cbn [main_loop].
    (* n = random.randint(1, 3) *)
    apply (step_pure env p _ _ st (fun n _ => 1 <= n <= 3)); auto.
    { apply returns_randint; [lia|]. intros n Hn. split; [exact Hn | adv]. }
    intros n st1 Hn A1 S1 N1 X1.
    (* message = create_cell_update_message(...) *)
    apply (step_pure env p _ _ st1
             (fun b st' => exists i, (cpos st1 <= i)%nat /\ cpos st' = S (S i) /\
                                     batch_fact env b i)); auto.
    { eapply returns_weaken; [apply create_cell_update_message_returns|].
      cbn. intros b st' (_ & L & _ & Ev & Ad & i & suffix & Ci & C' & Hs & Id & Ts).
      split; [|exact Ad]. exists i. repeat split; auto; try lia.
      exists suffix. auto. }
    intros b st2 (i & Ci & C2 & Fb) A2 S2 N2 X2.
    assert (Snd : sane env p (entered (EvSend "grid-updates" b "user1_view1") st2))
      by exact (sane_send env p st1 st2 _ b _ i S1 A2 Ci C2 Fb).
    apply post_bind_returns.
    apply (returns_load_producer env st2 p); [apply S2|].
    unfold producer_send. apply step_ext; auto.
    intros st3 S3 N3 X3.
    apply post_bind_returns.
    apply (returns_load_producer env st3 p); [apply S3|].
    unfold producer_flush, print, time_sleep.
    quiet_step. intros st4 S4 N4 X4.
    quiet_step. intros st5 S5 N5 X5.
    quiet_step. intros st6 S6 N6 X6.
    quiet_step. intros st7 S7 N7 X7.
    quiet_step. intros st8 S8 N8 X8.
    quiet_step. intros st9 S9 N9 X9.
    apply (step_pure env p _ _ st9 (fun _ _ => True)); auto.
    { apply returns_uniform. intros r _ _. split; [exact I | adv]. }
    intros d st10 _ A10 S10 N10 X10.
    eapply post_weaken.
    + apply post_bind_ext.
      * intros e E. instantiate (1 := loop_post env p (xpos st) (S fuel)).
        split; [now apply sane_quiet; [exact I|]|]. exists (xpos st10). split; [reflexivity|].
        split; [exact N10 | exact E].
      * intro E. eapply post_weaken.
        -- apply IH; [apply sane_quiet; [exact I | assumption] | now apply prior_none_entered].
        -- intros o st' (S' & H). split; [exact S'|].
           destruct o; auto. cbn [entered xpos] in H. destruct H as (H & N').
           split; [lia | exact N'].
    + auto.
Qed.

Lemma batch_inv_nil env st : batches_of (log st) = [] -> batch_inv env st.
Proof. intro E. exists []. rewrite E. repeat constructor. Qed.

Lemma post_bind_assoc {A B C} (m : M A) (f : A -> M B) (g : B -> M C)
    env st Q :
  post (bind m (fun x => bind (f x) g)) env st Q ->
  post (bind (bind m f) g) env st Q.
Proof.
  unfold post, bind. destruct (m env st) as [[a|e|] st']; auto.
Qed.

Lemma post_bind_ret {A B} (a : A) (k : A -> M B) env st Q :
  post (k a) env st Q -> post (bind (ret a) k) env st Q.
Proof. auto. Qed.

Lemma main_try_post env fuel :
  prior_none env started ->
  post (main_try fuel) env started (try_post env fuel (xpos started)).
Proof.
  intro N. unfold main_try, create_producer.
  apply post_bind_assoc, post_bind_ext.
  { intros e E3. split; [apply batch_inv_nil; reflexivity|]. repeat split; auto.
    - intros _ d. cbn. intuition discriminate.
    - exists 3%nat. repeat split; auto. }
  intro E3. apply post_bind_ret.
  set (p := mkProducer ["localhost:9092"]).
  apply post_bind_returns. eexists tt, _. split; [reflexivity|].
  match goal with |- post _ _ ?s _ => set (st4 := s) end.
  assert (S4 : sane env p st4).
  { split; [apply batch_inv_nil; reflexivity|]. repeat split. }
  assert (N4 : prior_none env st4).
  { intros j Hj. cbn in Hj. destruct (Nat.eq_dec j 3) as [->|D]; [exact E3|].
    apply N. cbn. lia. }
  unfold print. apply post_bind_ext.
  - intros e E. split; [apply batch_inv_nil; reflexivity|]. repeat split; auto.
    + discriminate.
    + exists 4%nat. repeat split; auto.
  - intro E. eapply post_weaken.
    + apply (main_loop_post env p).
      * apply sane_quiet; [exact I | exact S4].
      * now apply prior_none_entered.
    + intros o st' ((Bi & L & C & P) & H). split; [exact Bi|].
      split; [exact L|]. split; [exact C|].
      split; [rewrite P; discriminate|].
      destruct o; auto.
Qed.

(** ** Decimal numerals *)

Lemma uint_no_underscore d :
  has_char "_" (NilEmpty.string_of_uint d) = false.
Proof. induction d; cbn; auto. Qed.

Lemma py_str_no_underscore n : has_char "_" (py_str n) = false.
Proof.
  unfold py_str, NilZero.string_of_int, NilZero.string_of_uint.
  destruct (Z.to_int n) as [d|d]; destruct d; cbn;
    auto using uint_no_underscore.
Qed.

Lemma to_int_not_nil n :
  Z.to_int n <> Decimal.Pos Decimal.Nil /\
  Z.to_int n <> Decimal.Neg Decimal.Nil.
Proof.
  destruct n as [|p|p]; cbn; split; try discriminate;
    intros [= H]; revert H; apply DecimalPos.Unsigned.to_uint_nonnil.
Qed.

Lemma py_str_inj a b : py_str a = py_str b -> a = b.
Proof.
  intro H. unfold py_str in H.
  destruct (to_int_not_nil a) as [A1 A2]. destruct (to_int_not_nil b) as [B1 B2].
  pose proof (NilZero.isi _ A1 A2) as Ia. pose proof (NilZero.isi _ B1 B2) as Ib.
  rewrite H, Ib in Ia. injection Ia as E.
  rewrite <- (DecimalZ.of_to a), <- (DecimalZ.of_to b). now rewrite E.
Qed.

Lemma split_at_underscore s1 : forall s2 r1 r2,
  has_char "_" s1 = false -> has_char "_" s2 = false ->
  (s1 ++ String "_" r1)%string = (s2 ++ String "_" r2)%string ->
  s1 = s2 /\ r1 = r2.
Proof.
  induction s1 as [|a s1 IH]; intros [|b s2] r1 r2 H1 H2 E; cbn in *.
  - injection E as E. auto.
  - injection E as Eb E. subst b. cbn in H2. discriminate.
  - injection E as Ea E. subst a. cbn in H1. discriminate.
  - injection E as Ea E. subst b.
    apply orb_false_elim in H1, H2.
    destruct (IH s2 r1 r2) as [-> ->]; tauto.
Qed.

Lemma batch_id_inj t s t' s' :
  ("batch_" ++ py_str t ++ "_" ++ py_str s)%string =
  ("batch_" ++ py_str t' ++ "_" ++ py_str s')%string ->
  t = t' /\ s = s'.
Proof.
  cbn [append]. intros [= E].
  apply split_at_underscore in E; auto using py_str_no_underscore.
  destruct E as [E1 E2]. split; now apply py_str_inj.
Qed.

Lemma post_try_except {A} (body : M A) handler env st Q :
  post body env st (fun o st' =>
    match o with
    | Raise e =>
        match handler e with
        | Some h => post h env st' Q
        | None => Q (Raise e) st'
        end
    | _ => Q o st'
    end) ->
  post (try_except body handler) env st Q.
Proof.
  unfold post, try_except.
  destruct (body env st) as [[a|e|] st']; cbn; auto.
  destruct (handler e); auto.
Qed.

Lemma post_try_finally {A} (body : M A) fin env st Q :
  post body env st (fun o st' =>
    match o with
    | Running => Q Running st'
    | _ => post fin env st' (fun o' st'' =>
             match o' with
             | Ret _ => Q o st''
             | Raise e => Q (Raise e) st''
             | Running => Q Running st''
             end)
    end) ->
  post (try_finally body fin) env st Q.
Proof.
  unfold post, try_finally.
  destruct (body env st) as [[a|e|] st']; cbn; auto;
    destruct (fin env st') as [[[]|e'|] st'']; cbn; auto.
Qed.

Lemma post_ext ev env st (Q : outcome unit -> State -> Prop) :
  (forall e, ext_tape env (xpos st) = Some e -> Q (Raise e) (entered ev st)) ->
  (ext_tape env (xpos st) = None -> Q (Ret tt) (entered ev st)) ->
  post (ext_call ev) env st Q.
Proof.
  intros R N. unfold post, ext_call.
  destruct (ext_tape env (xpos st)); cbn; auto.
Qed.

(** The [finally] block never raises; it calls [close] once if [producer]
    is bound and not at all otherwise. *)
Lemma main_finally_bound env st p :
  producer st = Some p ->
  main_finally env st =
  (Ret tt,
   match ext_tape env (xpos st) with
   | Some _ => entered EvClose st
   | None => entered (EvPrint LClosed) (entered EvClose st)
   end).
Proof.
  intro P. unfold main_finally, try_except, bind, load_producer,
    producer_close, print, ext_call. rewrite P.
  destruct (ext_tape env (xpos st)); cbn; [reflexivity|].
  destruct (ext_tape env (S (xpos st))); reflexivity.
Qed.

Lemma main_finally_unbound env st :
  producer st = None -> main_finally env st = (Ret tt, st).
Proof.
  intro P. unfold main_finally, try_except, bind, load_producer. now rewrite P.
Qed.

Lemma first_raise_unique env i e j e' :
  first_raise env i e -> first_raise env j e' -> i = j /\ e = e'.
Proof.
  intros [Ni Ei] [Nj Ej].
  destruct (Nat.lt_trichotomy i j) as [L|[->|L]].
  - rewrite (Nj i L) in Ei. discriminate.
  - split; congruence.
  - rewrite (Ni j L) in Ej. discriminate.
Qed.

Lemma prior_none_started env :
  ext_tape env 0 = None -> ext_tape env 1 = None -> ext_tape env 2 = None ->
  prior_none env started.
Proof.
  intros E0 E1 E2 j Hj. cbn in Hj.
  destruct j as [|[|[|j]]]; auto. lia.
Qed.

Lemma batch_inv_entered env ev st :
  batches_of [ev] = [] -> batch_inv env st -> batch_inv env (entered ev st).
Proof.
  intros Q (idx & F & S & B). exists idx. cbn [entered log cpos].
  rewrite batches_of_app, Q, app_nil_r. auto.
Qed.

Lemma batch_inv_finally env st :
  batch_inv env st -> batch_inv env (snd (main_finally env st)).
Proof.
  intro B. destruct (producer st) as [p|] eqn:P.
  - rewrite (main_finally_bound env st p P). cbn [snd].
    destruct (ext_tape env (xpos st)); repeat apply batch_inv_entered; auto.
  - now rewrite (main_finally_unbound env st P).
Qed.

Lemma finally_returns env st : fst (main_finally env st) = Ret tt.
Proof.
  destruct (producer st) as [p|] eqn:P.
  - now rewrite (main_finally_bound env st p P).
  - now rewrite (main_finally_unbound env st P).
Qed.

(** The invariant on batches holds however [main] ends, and while it runs. *)
Lemma main_batch_inv env fuel :
  batch_inv env (snd (main fuel env init_state)).
Proof.
  change (post (main fuel) env init_state (fun _ st => batch_inv env st)).
  unfold main, print.
  apply post_bind_ext; [intros; apply batch_inv_nil; reflexivity | intro E0].
  apply post_bind_ext; [intros; apply batch_inv_nil; reflexivity | intro E1].
  apply post_bind_ext; [intros; apply batch_inv_nil; reflexivity | intro E2].
  apply post_try_finally, post_try_except.
  eapply post_weaken;
    [apply main_try_post, prior_none_started; assumption|].
  intros o st (B & _ & _ & _ & H).
  assert (F : forall (o' : outcome unit) st',
             batch_inv env st' ->
             post main_finally env st' (fun o'' st'' =>
               match o'' with
               | Ret _ => batch_inv env st''
               | Raise _ => batch_inv env st''
               | Running => batch_inv env st''
               end)).
  { intros _ st' B'. unfold post. rewrite finally_returns.
    now apply batch_inv_finally. }
  destruct o as [[]|e|]; [contradiction | | exact B].
  destruct e; cbn [main_handlers]; try (now apply (F Running)).
  - apply post_ext; intros; apply (F Running), batch_inv_entered; auto.
  - apply post_ext; intros; apply (F Running), batch_inv_entered; auto.
Qed.

Lemma Forall2_left {T U} (R : T -> U -> Prop) (P : T -> Prop) l l' :
  Forall2 R l l' -> (forall a b, R a b -> P a) -> Forall P l.
Proof. induction 1; intro HP; constructor; eauto. Qed.

Lemma Forall2_nth_error {T U} (R : T -> U -> Prop) l l' :
  Forall2 R l l' -> forall k a, nth_error l k = Some a ->
  exists b, nth_error l' k = Some b /\ R a b.
Proof.
  induction 1 as [|x y l l' H F IH]; intros [|k] a E; cbn in *;
    try discriminate.
  - injection E as <-. eauto.
  - eauto.
Qed.

Lemma StronglySorted_nth_error {T} (R : T -> T -> Prop) l :
  StronglySorted R l -> forall i j a b, (i < j)%nat ->
  nth_error l i = Some a -> nth_error l j = Some b -> R a b.
Proof.
  induction 1 as [|x l S IH F]; intros [|i] [|j] a b L Ea Eb; cbn in *;
    try discriminate; try lia.
  - injection Ea as <-. rewrite Forall_forall in F.
    eapply F, nth_error_In, Eb.
  - apply (IH i j a b); [lia | exact Ea | exact Eb].
Qed.

(** The batches of a run, and the clock positions their batchIds come from. *)
Lemma run_batches env fuel i j A B :
  (i < j)%nat ->
  nth_error (batches_of (log (snd (main fuel env init_state)))) i = Some A ->
  nth_error (batches_of (log (snd (main fuel env init_state)))) j = Some B ->
  exists iA iB, (iA < iB)%nat /\ batch_fact env A iA /\ batch_fact env B iB.
Proof.
  intros L EA EB. destruct (main_batch_inv env fuel) as (idx & F & S & _).
  destruct (Forall2_nth_error _ _ _ F _ _ EA) as (iA & IA & FA).
  destruct (Forall2_nth_error _ _ _ F _ _ EB) as (iB & IB & FB).
  exists iA, iB. split; [|split; assumption].
  exact (StronglySorted_nth_error lt idx S i j iA iB L IA IB).
Qed.

(** C2: every batch constructed during a run of [main], however long the
    run and however it ends, has eventType "CELL_UPDATE" and between one
    and three changes. *)
Theorem batches_tagged_and_sized env fuel :
  Forall (fun b => eventType b = "CELL_UPDATE" /\
                   (1 <= List.length (changes b) <= 3)%nat)
         (batches_of (log (snd (main fuel env init_state)))).
Proof.
  destruct (main_batch_inv env fuel) as (idx & F & _).
  eapply Forall2_left; [exact F|]. intros b i (E & L & _). auto.
Qed.

(** C4, amended: when the wall clock never goes back from one reading to
    a later one, a batch constructed before another in the same run has
    the smaller or equal timestamp. *)
Theorem timestamps_follow_clock env fuel i j A B :
  (forall k l, (k <= l)%nat -> (clock_tape env k <= clock_tape env l)%Q) ->
  (i < j)%nat ->
  nth_error (batches_of (log (snd (main fuel env init_state)))) i = Some A ->
  nth_error (batches_of (log (snd (main fuel env init_state)))) j = Some B ->
  timestamp A <= timestamp B.
Proof.
  intros Mono L EA EB.
  destruct (run_batches env fuel i j A B L EA EB)
    as (iA & iB & Lt & (_ & _ & _ & TA) & (_ & _ & _ & TB)).
  rewrite TA, TB. apply ms_at_mono, Mono. lia.
Qed.

(** C3, amended: the batchId of a batch is "batch_<t>_<s>", with [t] the
    wall clock in whole milliseconds at its construction and [s] a random
    suffix between 1000 and 9999, and a later batch reads the clock later;
    two batches of a run have the same batchId exactly when their readings
    agree to the millisecond and their suffixes are equal. *)
Theorem batch_ids_differ_by_reading_or_suffix env fuel i j A B :
  (i < j)%nat ->
  nth_error (batches_of (log (snd (main fuel env init_state)))) i = Some A ->
  nth_error (batches_of (log (snd (main fuel env init_state)))) j = Some B ->
  exists iA sA iB sB,
    (iA < iB)%nat /\
    1000 <= sA <= 9999 /\ 1000 <= sB <= 9999 /\
    batchId A = ("batch_" ++ py_str (ms_at env iA) ++ "_" ++ py_str sA)%string /\
    batchId B = ("batch_" ++ py_str (ms_at env iB) ++ "_" ++ py_str sB)%string /\
    (batchId A = batchId B <-> ms_at env iA = ms_at env iB /\ sA = sB).
Proof.
  intros L EA EB.
  destruct (run_batches env fuel i j A B L EA EB)
    as (iA & iB & Lt & (_ & _ & (sA & RA & IA) & _) & (_ & _ & (sB & RB & IB) & _)).
  exists iA, sA, iB, sB.
  split; [exact Lt|]. split; [exact RA|]. split; [exact RB|].
  split; [exact IA|]. split; [exact IB|]. rewrite IA, IB. split.
  - apply batch_id_inj.
  - intros [-> ->]. reflexivity.
Qed.

Lemma first_raise_0 env e : ext_tape env 0 = Some e -> first_raise env 0%nat e.
Proof. intro E. split; [intros j Hj; lia | exact E]. Qed.

Lemma first_raise_next env n e :
  (forall j, (j < n)%nat -> ext_tape env j = None) ->
  ext_tape env n = Some e -> first_raise env n e.
Proof. intros N E. split; assumption. Qed.

Lemma prior_lt_3 env :
  ext_tape env 0 = None -> ext_tape env 1 = None -> ext_tape env 2 = None ->
  forall j, (j < 3)%nat -> ext_tape env j = None.
Proof. intros E0 E1 E2 [|[|[|j]]] Hj; auto; lia. Qed.

(** What [main] does once an exception has surfaced in call [i] of the
    [try] block and its handler has printed: the [finally] block. *)
Lemma closes_entered ev st :
  closes (log (entered ev st)) =
  (closes (log st) + closes [ev])%nat.
Proof. cbn [entered log]. apply closes_app. Qed.

Lemma firstn_log_entered ev st :
  firstn (List.length (log st)) (log (entered ev st)) = log st.
Proof.
  cbn [entered log]. rewrite firstn_app, Nat.sub_diag, firstn_all. cbn.
  apply app_nil_r.
Qed.

(** C6: when the first exception to surface in a run is a
    KeyboardInterrupt delivered during a [sleep], [main] ends, [close] has
    been called exactly once by then, not before the interrupted [sleep],
    and [main] returns normally if the [print] of the handler completes. *)
Theorem close_once_when_interrupted_asleep env fuel i d :
  first_raise env i KeyboardInterrupt ->
  nth_error (log (snd (main fuel env init_state))) i = Some (EvSleep d) ->
  fst (main fuel env init_state) <> Running /\
  closes (log (snd (main fuel env init_state))) = 1%nat /\
  closes (firstn (S i) (log (snd (main fuel env init_state)))) = 0%nat /\
  (ext_tape env (S i) = None -> fst (main fuel env init_state) = Ret tt).
Proof.
  intro FR.
  set (Q := fun (o : outcome unit) st =>
            nth_error (log st) i = Some (EvSleep d) ->
            o <> Running /\ closes (log st) = 1%nat /\
            closes (firstn (S i) (log st)) = 0%nat /\
            (ext_tape env (S i) = None -> o = Ret tt)).
  change (post (main fuel) env init_state Q).
  unfold main, print.
  apply post_bind_ext.
  { intros e E Hn.
    destruct (first_raise_unique _ _ _ _ _ FR (first_raise_0 env e E)) as [-> _].
    discriminate. }
  intro E0. apply post_bind_ext.
  { intros e E Hn. cbn in E.
    assert (F1 : first_raise env 1%nat e).
    { apply first_raise_next; [|exact E]. intros [|j] Hj; [exact E0 | lia]. }
    destruct (first_raise_unique _ _ _ _ _ FR F1) as [-> _]. discriminate. }
  intro E1. cbn in E1. apply post_bind_ext.
  { intros e E Hn. cbn in E.
    assert (F2 : first_raise env 2%nat e).
    { apply first_raise_next; [|exact E]. intros [|[|j]] Hj; auto; lia. }
    destruct (first_raise_unique _ _ _ _ _ FR F2) as [-> _]. discriminate. }
  intro E2. cbn in E2.
  apply post_try_finally, post_try_except.
  eapply post_weaken;
    [apply main_try_post, prior_none_started; assumption|].
  intros o st (_ & L & C & P & H).
  destruct o as [[]|e|]; [contradiction | |].
  2:{ destruct H as [_ N]. intro Hn.
      assert (Hi : (i < xpos st)%nat).
      { rewrite <- L. apply nth_error_Some. congruence. }
      destruct FR as [_ FR]. rewrite (N i Hi) in FR. discriminate. }
  destruct H as (i' & X & FR').
  destruct (first_raise_unique _ _ _ _ _ FR FR') as [<- <-].
  cbn [main_handlers].
  assert (Fin : forall (o : outcome unit) st',
            (o = Ret tt \/ (exists e', o = Raise e') /\
                           ext_tape env (S i) <> None) ->
            st' = entered (EvPrint LStopping) st ->
            post main_finally env st' (fun o'' st'' =>
              match o'' with
              | Ret _ => Q o st''
              | Raise e => Q (Raise e) st''
              | Running => Q Running st''
              end)).
  { intros o st' Ho ->. unfold post.
    assert (NR : o <> Running) by (destruct Ho as [->|[[e' ->] _]]; discriminate).
    assert (RT : ext_tape env (S i) = None -> o = Ret tt)
      by (destruct Ho as [->|[_ Ne]]; [auto | intro; contradiction]).
    assert (L' : List.length (log (entered (EvPrint LStopping) st)) = S (S i))
      by (cbn [entered log]; rewrite length_app, L, X; cbn; lia).
    destruct (producer st) as [p|] eqn:Pr.
    - rewrite (main_finally_bound env _ p) by exact Pr. cbn [fst snd].
      unfold Q. intros _. split; [exact NR|].
      assert (Fi : forall st2, firstn (S i) (log st2) = log st ->
                               closes (firstn (S i) (log st2)) = 0%nat)
        by (intros st2 ->; exact C).
      destruct (ext_tape env (xpos (entered (EvPrint LStopping) st))).
      + split; [rewrite !closes_entered, C; reflexivity|].
        split; [|exact RT]. apply Fi. rewrite <- X, <- L.
        cbn [entered log]. rewrite <- app_assoc.
        rewrite firstn_app, Nat.sub_diag, firstn_all. cbn. apply app_nil_r.
      + split; [rewrite !closes_entered, C; reflexivity|].
        split; [|exact RT]. apply Fi. rewrite <- X, <- L.
        cbn [entered log]. rewrite <- !app_assoc.
        rewrite firstn_app, Nat.sub_diag, firstn_all. cbn. apply app_nil_r.
    - rewrite (main_finally_unbound env (entered (EvPrint LStopping) st) Pr).
      cbn [fst snd]. unfold Q. cbn [entered log].
      intro Hn. exfalso. rewrite nth_error_app1 in Hn by lia.
      apply nth_error_In in Hn. exact (P eq_refl d Hn). }
  apply post_ext.
  - intros e' E'. apply (Fin (Raise e')); [|reflexivity].
    right. split; [eauto|]. rewrite <- X. congruence.
  - intros _. apply (Fin (Ret tt)); [now left | reflexivity].
Qed.

(** C9, amended: [main] propagates no exception, and returns once an
    exception has surfaced, whenever the three start-up prints complete,
    the exception surfacing in the [try] block is a KeyboardInterrupt or
    derives from Exception, and the [print] of its handler completes;
    whatever [close] and the [print] after it raise, and the NameError of
    an unbound [producer], is dropped. *)
Theorem main_returns_when_handlers_cover env fuel :
  ext_tape env 0 = None -> ext_tape env 1 = None -> ext_tape env 2 = None ->
  (forall i e, first_raise env i e ->
               e <> SystemExit /\ ext_tape env (S i) = None) ->
  (forall e, fst (main fuel env init_state) <> Raise e) /\
  (forall i e, first_raise env i e -> (i < 5 + 8 * fuel)%nat ->
               fst (main fuel env init_state) = Ret tt).
Proof.
  intros E0 E1 E2 Cover.
  set (Q := fun (o : outcome unit) (st : State) =>
            (forall e, o <> Raise e) /\
            (forall i e, first_raise env i e -> (i < 5 + 8 * fuel)%nat ->
                         o = Ret tt)).
  change (post (main fuel) env init_state Q).
  unfold main, print.
  apply post_bind_ext; [intros e E; cbn in E; congruence | intros _].
  apply post_bind_ext; [intros e E; cbn in E; congruence | intros _].
  apply post_bind_ext; [intros e E; cbn in E; congruence | intros _].
  apply post_try_finally, post_try_except.
  eapply post_weaken;
    [apply main_try_post, prior_none_started; assumption|].
  intros o st (_ & _ & _ & _ & H).
  assert (Fin : forall st',
            post main_finally env st' (fun o'' st'' =>
              match o'' with
              | Ret _ => Q (Ret tt) st''
              | Raise e => Q (Raise e) st''
              | Running => Q Running st''
              end)).
  { intro st'. unfold post. rewrite finally_returns.
    split; [discriminate | reflexivity]. }
  destruct o as [[]|e|]; [contradiction | |].
  - destruct H as (i & X & FR). destruct (Cover i e FR) as [NS En].
    rewrite <- X in En.
    destruct e; cbn [main_handlers]; try contradiction;
      (apply post_ext; [intros e' E'; congruence | intros _; apply Fin]).
  - destruct H as [X N]. split; [discriminate|].
    intros i e [_ Ei] Hi. rewrite N in Ei; [discriminate|].
    rewrite X. cbn. lia.
Qed.

(** ** Inputs of the synthesizer *)

Lemma reads_0 st : reads 0 0 st = st.
Proof. destruct st. unfold reads. cbn. now rewrite !Nat.add_0_r. Qed.

Lemma reads_reads dr dc dr' dc' st :
  reads dr' dc' (reads dr dc st) = reads (dr + dr') (dc + dc') st.
Proof. unfold reads. cbn. now rewrite !Nat.add_assoc. Qed.

Lemma next_draw_reads st : next_draw st = reads 1 0 st.
Proof.
  unfold next_draw, reads. now rewrite Nat.add_1_r, Nat.add_0_r.
Qed.

Lemma next_tick_reads st : next_tick st = reads 0 1 st.
Proof.
  unfold next_tick, reads. now rewrite Nat.add_1_r, Nat.add_0_r.
Qed.

Lemma same_inputs_reads env1 st1 env2 st2 dr dc :
  same_inputs env1 st1 env2 st2 ->
  same_inputs env1 (reads dr dc st1) env2 (reads dr dc st2).
Proof.
  intros [R C]. split; intro k; cbn [reads rpos cpos];
    rewrite <- !Nat.add_assoc; [apply R | apply C].
Qed.

Lemma input_determined_ret {A} (a : A) : input_determined (ret a).
Proof.
  intros env1 st1 env2 st2 _. exists (Ret a), 0%nat, 0%nat.
  now rewrite !reads_0.
Qed.

Lemma input_determined_raise {A} e : input_determined (@raise A e).
Proof.
  intros env1 st1 env2 st2 _. exists (Raise e), 0%nat, 0%nat.
  now rewrite !reads_0.
Qed.

Lemma input_determined_bind {A B} (m : M A) (k : A -> M B) :
  input_determined m -> (forall a, input_determined (k a)) ->
  input_determined (bind m k).
Proof.
  intros Hm Hk env1 st1 env2 st2 S.
  destruct (Hm env1 st1 env2 st2 S) as (o & dr & dc & E1 & E2).
  unfold bind. rewrite E1, E2. destruct o as [a|e|].
  - destruct (Hk a _ _ _ _ (same_inputs_reads _ _ _ _ dr dc S))
      as (o' & dr' & dc' & E1' & E2').
    exists o', (dr + dr')%nat, (dc + dc')%nat.
    now rewrite E1', E2', !reads_reads.
  - exists (Raise e), dr, dc. auto.
  - exists Running, dr, dc. auto.
Qed.

Lemma input_determined_draw : input_determined draw.
Proof.
  intros env1 st1 env2 st2 [R _]. unfold draw.
  exists (Ret (rand_tape env1 (rpos st1))), 1%nat, 0%nat.
  rewrite !next_draw_reads. split; [reflexivity|].
  specialize (R 0%nat). rewrite !Nat.add_0_r in R. now rewrite R.
Qed.

Lemma input_determined_time : input_determined time_time.
Proof.
  intros env1 st1 env2 st2 [_ C]. unfold time_time.
  exists (Ret (clock_tape env1 (cpos st1))), 0%nat, 1%nat.
  rewrite !next_tick_reads. split; [reflexivity|].
  specialize (C 0%nat). rewrite !Nat.add_0_r in C. now rewrite C.
Qed.

Create HintDb inputs.
#[local] Hint Resolve input_determined_ret input_determined_raise
  input_determined_draw input_determined_time : inputs.

Ltac inputs :=
  repeat first
    [ apply input_determined_bind; [|intro]
    | solve [auto with inputs]
    | match goal with
      | |- input_determined (if ?c then _ else _) => destruct c
      end ].

Lemma input_determined_randint a b : input_determined (randint a b).
Proof. unfold randint. inputs. Qed.

Lemma input_determined_choice {A} (seq : list A) :
  input_determined (choice seq).
Proof. unfold choice. destruct seq; inputs. Qed.

Lemma input_determined_uniform a b : input_determined (uniform a b).
Proof. unfold uniform, random. inputs. Qed.

Lemma input_determined_now_ms : input_determined now_ms.
Proof. unfold now_ms. inputs. Qed.

#[local] Hint Resolve input_determined_randint input_determined_choice
  input_determined_uniform input_determined_now_ms : inputs.

Lemma input_determined_loop_body acc : input_determined (loop_body acc).
Proof. unfold loop_body. inputs. Qed.

Lemma input_determined_for_range n : forall acc,
  input_determined (for_range n loop_body acc).
Proof.
  induction n as [|n IH]; intro acc; cbn [for_range].
  - apply input_determined_ret.
  - apply input_determined_bind; [apply input_determined_loop_body | exact IH].
Qed.

Lemma input_determined_synthesizer grid_id num_changes :
  input_determined (create_cell_update_message grid_id num_changes).
Proof.
  unfold create_cell_update_message.
  apply input_determined_bind; [apply input_determined_for_range | intro].
  inputs.
Qed.

(** C7: a call of the synthesizer never raises, for any count; two calls
    given the same draws and the same clock readings return the same
    batch, whatever the states they are made in and whatever the external
    calls would do; and each call leaves the log, the local variables and
    the position on the tape of external calls as they were. *)
Theorem synthesizer_pure grid_id num_changes env1 st1 env2 st2 :
  same_inputs env1 st1 env2 st2 ->
  exists b st1' st2',
    create_cell_update_message grid_id num_changes env1 st1 = (Ret b, st1') /\
    create_cell_update_message grid_id num_changes env2 st2 = (Ret b, st2') /\
    xpos st1' = xpos st1 /\ producer st1' = producer st1 /\
    log st1' = log st1 /\
    xpos st2' = xpos st2 /\ producer st2' = producer st2 /\
    log st2' = log st2.
Proof.
  intro S.
  destruct (input_determined_synthesizer grid_id num_changes _ _ _ _ S)
    as (o & dr & dc & E1 & E2).
  destruct (create_cell_update_message_returns env1 grid_id num_changes st1)
    as (b & st' & E & _).
  rewrite E1 in E. injection E as -> _.
  exists b, (reads dr dc st1), (reads dr dc st2).
  split; [exact E1|]. split; [exact E2|]. cbn. auto 10.
Qed.

(** * The wire format *)

(** ** UTF-8 *)

Lemma decode_encode_char (c : ascii) (s : string) :
  decode_utf8 (encode_utf8 (String c s)) =
  option_map (String c) (decode_utf8 (encode_utf8 s)).
Proof.
  destruct c as [[|] [|] [|] [|] [|] [|] [|] [|]]; reflexivity.
Qed.

Lemma decode_encode_utf8 (s : string) : decode_utf8 (encode_utf8 s) = Some s.
Proof.
  induction s as [|c s IH]; [reflexivity|].
  now rewrite decode_encode_char, IH.
Qed.

(** ** Strings *)

Lemma scan_escape_char (c : ascii) (r : string) :
  scan_string (escape_char c ++ r) = cons_char c (scan_string r).
Proof.
  destruct c as [[|] [|] [|] [|] [|] [|] [|] [|]]; reflexivity.
Qed.

Lemma scan_string_escape (s rest : string) :
  scan_string (escape_into s (String quote rest)) = Some (s, rest).
Proof.
  induction s as [|c s IH]; [reflexivity|].
  cbn [escape_into]. now rewrite scan_escape_char, IH.
Qed.

(** ** Decimal numerals *)

Lemma append_assoc (a b c : string) : ((a ++ b) ++ c = a ++ (b ++ c))%string.
Proof. induction a as [|x a IH]; cbn; [reflexivity | now rewrite IH]. Qed.

Lemma ends_number_no_digit rest :
  ends_number rest = true -> take_digits rest = (EmptyString, rest).
Proof.
  destruct rest as [|c r]; [reflexivity|]. cbn.
  destruct (is_digit c); [discriminate | reflexivity].
Qed.

Lemma take_all_digits ds rest :
  all_digits ds = true -> ends_number rest = true ->
  take_digits (ds ++ rest) = (ds, rest).
Proof.
  intros D E. induction ds as [|c ds IH]; cbn in *.
  - now apply ends_number_no_digit.
  - apply andb_prop in D. destruct D as [Dc D]. now rewrite Dc, IH.
Qed.

Lemma uint_all_digits d : all_digits (NilEmpty.string_of_uint d) = true.
Proof. induction d; cbn; auto. Qed.

Lemma horner_uint_acc d : forall acc,
  horner (Z.pos acc) (NilEmpty.string_of_uint d) =
  Z.pos (Pos.of_uint_acc d acc).
Proof.
  induction d; intro acc;
    cbn [NilEmpty.string_of_uint horner Pos.of_uint_acc];
    try reflexivity; rewrite <- IHd; f_equal;
    match goal with
    | |- context [digit_val ?c] =>
        let v := eval vm_compute in (digit_val c) in
        change (digit_val c) with v
    end; lia.
Qed.

Lemma horner_uint d :
  horner 0 (NilEmpty.string_of_uint d) = Z.of_N (Pos.of_uint d).
Proof.
  induction d; cbn [NilEmpty.string_of_uint horner Pos.of_uint];
    try reflexivity; try exact IHd;
    match goal with
    | |- horner ?a _ = _ =>
        let v := eval vm_compute in a in change a with v
    end; apply horner_uint_acc.
Qed.

Lemma pos_uint_head p :
  exists c ds,
    NilEmpty.string_of_uint (Pos.to_uint p) = String c ds /\
    is_digit c = true /\ Ascii.eqb c "0" = false /\ Ascii.eqb c "-" = false.
Proof.
  pose proof (DecimalPos.Unsigned.to_of (Pos.to_uint p)) as H.
  rewrite DecimalPos.Unsigned.of_to in H. cbn [N.to_uint] in H.
  pose proof (DecimalPos.Unsigned.to_uint_nonnil p) as NN.
  pose proof (DecimalPos.Unsigned.to_uint_nonzero p) as NZ.
  destruct (Pos.to_uint p) as [|d|d|d|d|d|d|d|d|d|d] eqn:E;
    try (eexists _, _; cbn; repeat split; reflexivity).
  - contradiction.
  - exfalso. unfold Decimal.unorm in H.
    destruct (Decimal.nzhead (Decimal.D0 d)) eqn:Hz;
      try (subst; eapply DecimalFacts.nzhead_nonzero; eassumption);
      try discriminate.
    apply NZ. exact H.
Qed.

Lemma py_str_pos p :
  py_str (Z.pos p) = NilEmpty.string_of_uint (Pos.to_uint p).
Proof.
  unfold py_str. cbn. unfold NilZero.string_of_uint.
  pose proof (DecimalPos.Unsigned.to_uint_nonnil p).
  now destruct (Pos.to_uint p).
Qed.

Lemma horner_py_str_pos p : horner 0 (py_str (Z.pos p)) = Z.pos p.
Proof.
  rewrite py_str_pos, horner_uint, DecimalPos.Unsigned.of_to. reflexivity.
Qed.

(** ** Rounding respects the value *)

Section RoundingValue.
Local Open Scope Q_scope.

Lemma ilog2_comp (x y : Q) : 0 < x -> x == y -> ilog2 x = ilog2 y.
Proof.
  intros P E. destruct (ilog2_spec y ltac:(rewrite <- E; exact P)) as [L U].
  apply ilog2_unique; rewrite E; assumption.
Qed.

Lemma round_pos_comp (x y : Q) : 0 <= x -> x == y -> round_pos x == round_pos y.
Proof.
  intros P E. destruct (Qeq_dec x 0) as [Z0|NZ].
  - rewrite (round_pos_zero x Z0), (round_pos_zero y); [reflexivity|].
    now rewrite <- E.
  - assert (Px : 0 < x).
    { destruct (Qlt_le_dec 0 x) as [C|C]; [exact C|]. exfalso. apply NZ. lra. }
    unfold round_pos, ulp_exp. rewrite <- (ilog2_comp x y Px E).
    rewrite (rne_comp (x * pow2 (- (Z.max (ilog2 x) emin - 52)))
                      (y * pow2 (- (Z.max (ilog2 x) emin - 52)))).
    + reflexivity.
    + apply Qmult_comp; [exact E | reflexivity].
Qed.

Lemma rnd_comp (x y : Q) : x == y -> rnd x = rnd y.
Proof.
  intro E. unfold rnd. apply Qred_complete.
  rewrite (Qleb_comp 0 0 ltac:(reflexivity) x y E).
  destruct (Qle_bool 0 y) eqn:S.
  - apply round_pos_comp; [|exact E]. rewrite E. now apply Qle_bool_iff.
  - assert (N : ~ 0 <= y) by (rewrite <- Qle_bool_iff; congruence).
    apply Qopp_comp, round_pos_comp; [|now rewrite E].
    rewrite E. lra.
Qed.

(** Two floats with the same value are the same float. *)
Lemma rnd_canonical (a b : Q) : rnd a == rnd b -> rnd a = rnd b.
Proof.
  intro E. unfold rnd in *. apply Qred_complete.
  now rewrite !Qred_correct in E.
Qed.

End RoundingValue.

(** ** Digits written and read *)

Lemma digit_char_ok d :
  0 <= d <= 9 ->
  is_digit (digit_char d) = true /\ digit_val (digit_char d) = d.
Proof.
  intro H.
  assert (C : d = 0 \/ d = 1 \/ d = 2 \/ d = 3 \/ d = 4 \/ d = 5 \/ d = 6 \/
              d = 7 \/ d = 8 \/ d = 9) by lia.
  repeat (destruct C as [->|C]; [split; reflexivity|]). subst. split; reflexivity.
Qed.

Lemma low_digits_app w : forall f a b,
  low_digits w f (a ++ b) = (low_digits w f a ++ b)%string.
Proof.
  induction w as [|w IH]; intros f a b; cbn [low_digits]; [reflexivity|].
  now rewrite <- IH.
Qed.

Lemma low_digits_all_digits w : forall f r,
  all_digits r = true -> all_digits (low_digits w f r) = true.
Proof.
  induction w as [|w IH]; intros f r H; cbn [low_digits]; [exact H|].
  apply IH. cbn [all_digits]. rewrite H.
  destruct (digit_char_ok (f mod 10)) as [D _];
    [pose proof (Z.mod_pos_bound f 10); lia | now rewrite D].
Qed.

Lemma length_low_digits w : forall f r,
  String.length (low_digits w f r) = (w + String.length r)%nat.
Proof.
  induction w as [|w IH]; intros f r; cbn [low_digits]; [reflexivity|].
  rewrite IH. cbn. lia.
Qed.

Lemma horner_low_digits w : forall f acc r,
  horner acc (low_digits w f r) =
  horner (acc * 10 ^ Z.of_nat w + f mod 10 ^ Z.of_nat w) r.
Proof.
  induction w as [|w IH]; intros f acc r; cbn [low_digits].
  - cbn. rewrite Z.mod_1_r. f_equal. lia.
  - rewrite IH. cbn [horner].
    destruct (digit_char_ok (f mod 10)) as [_ ->];
      [pose proof (Z.mod_pos_bound f 10); lia|].
    f_equal. rewrite Nat2Z.inj_succ, Z.pow_succ_r by lia.
    rewrite (Z.rem_mul_r f 10 (10 ^ Z.of_nat w)) by lia. lia.
Qed.

Lemma horner_app ds : forall acc fd,
  horner acc (ds ++ fd) = horner (horner acc ds) fd.
Proof. induction ds as [|c ds IH]; intros; cbn; [reflexivity | apply IH]. Qed.

(** ** Numbers *)

Lemma scan_frac_none rest :
  ends_number rest = true -> scan_frac rest = (None, rest).
Proof.
  destruct rest as [|c r]; [reflexivity|]. cbn.
  destruct (Ascii.eqb c "."); [|reflexivity].
  rewrite !orb_true_r. discriminate.
Qed.

Lemma scan_exp_none rest :
  ends_number rest = true -> scan_exp rest = (None, rest).
Proof.
  destruct rest as [|c r]; [reflexivity|]. cbn.
  destruct (Ascii.eqb c "e"), (Ascii.eqb c "E"); cbn; try reflexivity;
    rewrite ?orb_true_r; discriminate.
Qed.

Lemma finish_number_int neg ds rest :
  ends_number rest = true ->
  finish_number neg ds rest =
  Some (JInt (if neg then - horner 0 ds else horner 0 ds), rest).
Proof.
  intro E. unfold finish_number.
  now rewrite (scan_frac_none rest E), (scan_exp_none rest E).
Qed.

Lemma finish_number_frac neg ds fd rest :
  all_digits fd = true -> fd <> EmptyString -> ends_number rest = true ->
  finish_number neg ds (String "." (fd ++ rest)) =
  Some (JFloat (let x := float_of_scaled (horner (horner 0 ds) fd)
                                         (Z.of_nat (String.length fd) - 0) in
                if neg then Qred (- x) else x), rest).
Proof.
  intros D N E. unfold finish_number, scan_frac.
  change (Ascii.eqb "." ".") with true. cbv iota.
  rewrite (take_all_digits fd rest D E).
  destruct fd as [|c fd']; [contradiction|].
  now rewrite (scan_exp_none rest E).
Qed.

Lemma take_digits_stop ds r :
  all_digits ds = true -> no_digit_head r = true ->
  take_digits (ds ++ r) = (ds, r).
Proof.
  intros D E. induction ds as [|c ds IH]; cbn in *.
  - destruct r as [|c r]; [reflexivity|]. cbn in *.
    destruct (is_digit c); [discriminate | reflexivity].
  - apply andb_prop in D. destruct D as [Dc D]. now rewrite Dc, IH.
Qed.

Lemma parse_number_nonneg n r :
  0 <= n -> no_digit_head r = true ->
  parse_number (py_str n ++ r) = finish_number false (py_str n) r /\
  horner 0 (py_str n) = n.
Proof.
  intros H E. destruct n as [|p|p]; [split; reflexivity | | lia].
  split; [|apply horner_py_str_pos].
  rewrite py_str_pos.
  destruct (pos_uint_head p) as (c & ds & S & Dc & Z0 & Mi).
  pose proof (uint_all_digits (Pos.to_uint p)) as D.
  pose proof (take_digits_stop _ r D E) as T.
  rewrite S in *. unfold parse_number. cbn [append].
  rewrite Mi, Z0, Dc. cbn [append] in T. now rewrite T.
Qed.

Lemma ends_number_no_digit_head r :
  ends_number r = true -> no_digit_head r = true.
Proof.
  destruct r as [|c r]; [reflexivity|]. cbn.
  destruct (is_digit c); [discriminate | reflexivity].
Qed.

Lemma parse_number_int n rest :
  ends_number rest = true ->
  parse_number (py_str n ++ rest) = Some (JInt n, rest).
Proof.
  intro E. pose proof (ends_number_no_digit_head rest E) as E'.
  destruct (Z_le_gt_dec 0 n) as [P|N].
  - destruct (parse_number_nonneg n rest P E') as [-> Hn].
    now rewrite finish_number_int, Hn.
  - destruct n as [|p|p]; try lia.
    change (py_str (Z.neg p)) with (String "-" (py_str (Z.pos p))).
    rewrite py_str_pos.
    destruct (pos_uint_head p) as (c & ds & S & Dc & Z0 & Mi).
    pose proof (uint_all_digits (Pos.to_uint p)) as D.
    pose proof (take_digits_stop _ rest D E') as T.
    pose proof (horner_py_str_pos p) as Hp. rewrite py_str_pos in Hp.
    rewrite S in *. unfold parse_number. cbn [append].
    change (Ascii.eqb "-" "-") with true. cbv iota.
    rewrite Z0, Dc. cbn [append] in T. rewrite T.
    rewrite finish_number_int by exact E. now rewrite Hp.
Qed.

(** The positional form of [c * 10^(-s)] reads back as that decimal. *)
Lemma parse_positional c s rest :
  0 < c -> ends_number rest = true ->
  parse_number
    ((if s <=? 0 then (py_str (c * 10 ^ (- s)) ++ ".0")%string
      else (py_str (c / 10 ^ s)
              ++ String "." (low_digits (Z.to_nat s) (c mod 10 ^ s) ""))%string)
       ++ rest) =
  Some (JFloat (float_of_scaled c s), rest).
Proof.
  intros Hc E. destruct (Z.leb_spec s 0) as [Hs|Hs].
  - rewrite append_assoc.
    assert (P : 0 <= c * 10 ^ (- s)) by (apply Z.mul_nonneg_nonneg; lia).
    destruct (parse_number_nonneg _ (".0" ++ rest) P eq_refl) as [-> Hn].
    change (".0" ++ rest)%string with (String "." ("0" ++ rest)).
    rewrite finish_number_frac by (auto; discriminate).
    cbv zeta. rewrite Hn. do 3 f_equal.
    unfold float_of_scaled. apply rnd_comp.
    change (horner (c * 10 ^ (- s)) "0") with (10 * (c * 10 ^ (- s)) + 0).
    change (Z.of_nat (String.length "0") - 0) with 1.
    rewrite Z.add_0_r, !inject_Z_mult.
    change (pow10 (- (1))) with (1 # 10)%Q.
    rewrite Zpower_Qpower by lia. unfold pow10.
    change (inject_Z 10) with 10%Q.
    generalize (10 ^ (- s))%Q. intro q. ring.
  - rewrite append_assoc. cbn [append].
    assert (P : 0 <= c / 10 ^ s) by (apply Z.div_pos; lia).
    destruct (parse_number_nonneg _
                (String "." (low_digits (Z.to_nat s) (c mod 10 ^ s) "" ++ rest))
                P eq_refl) as [-> Hn].
    rewrite finish_number_frac; auto.
    + cbv zeta. rewrite Hn. do 3 f_equal.
      rewrite horner_low_digits, length_low_digits. cbn [horner String.length].
      rewrite Nat.add_0_r, Z2Nat.id, Z.sub_0_r by lia.
      f_equal. rewrite Z.mod_mod by lia.
      rewrite (Z.div_mod c (10 ^ s)) at 3 by lia. lia.
    + now apply low_digits_all_digits.
    + intro C. apply (f_equal String.length) in C.
      rewrite length_low_digits in C. cbn in C. lia.
Qed.

(** ** [repr] of the floats of the ["number"] branch *)

Section Repr.
Local Open Scope Q_scope.

Lemma pow10_pos (e : Z) : 0 < pow10 e.
Proof. apply Qpower_0_lt. reflexivity. Qed.

Lemma pow10_le (a b : Z) : (a <= b)%Z -> pow10 a <= pow10 b.
Proof. intro H. apply Qpower_le_compat_l; [exact H | discriminate]. Qed.

Lemma pow10_succ (e : Z) : pow10 (e + 1) == pow10 e * 10.
Proof.
  unfold pow10. rewrite Qpower_plus by discriminate. reflexivity.
Qed.

Lemma ilog10_range (d : Q) (lo hi : Z) :
  (lo <= 0 <= hi)%Z -> pow10 lo <= d -> d < pow10 (hi + 1) ->
  (lo <= ilog10 d <= hi)%Z.
Proof.
  intros Z0 L U. unfold ilog10.
  destruct (find _ _) as [e|] eqn:F; [|exact Z0].
  apply find_some in F. destruct F as [_ T].
  apply andb_prop in T. destruct T as [T1 T2].
  apply Qle_bool_iff in T1.
  assert (T3 : ~ pow10 (e + 1) <= d).
  { intro C. apply Qle_bool_iff in C. rewrite C in T2. discriminate. }
  split.
  - destruct (Z_le_gt_dec lo e) as [C|C]; [exact C|]. exfalso. apply T3.
    apply Qle_trans with (pow10 lo); [apply pow10_le; lia | exact L].
  - destruct (Z_le_gt_dec e hi) as [C|C]; [exact C|]. exfalso.
    pose proof (pow10_le (hi + 1) e ltac:(lia)). lra.
Qed.

Lemma strip_zeros_spec fuel : forall c s,
  (0 < c)%Z ->
  (0 < fst (strip_zeros fuel c s))%Z /\
  inject_Z (fst (strip_zeros fuel c s)) * pow10 (- snd (strip_zeros fuel c s))
  == inject_Z c * pow10 (- s).
Proof.
  induction fuel as [|fuel IH]; intros c s Hc; cbn [strip_zeros].
  - split; [exact Hc | reflexivity].
  - destruct ((0 <? s)%Z && (c mod 10 =? 0)%Z) eqn:T.
    + apply andb_prop in T. destruct T as [T1 T2].
      apply Z.ltb_lt in T1. apply Z.eqb_eq in T2.
      assert (Ec : c = (10 * (c / 10))%Z).
      { rewrite (Z.div_mod c 10) at 1 by lia. lia. }
      destruct (IH (c / 10)%Z (s - 1)%Z ltac:(lia)) as [P E].
      split; [exact P|]. rewrite E.
      replace (- s)%Z with (- (s - 1) + -1)%Z by lia.
      unfold pow10. rewrite Qpower_plus by discriminate.
      rewrite Ec at 2. rewrite inject_Z_mult.
      change (10 ^ (-1)) with (1 # 10). change (inject_Z 10) with 10.
      generalize (10 ^ (- (s - 1))). intro q. ring.
    + split; [exact Hc | reflexivity].
Qed.

Lemma ceiling_unique (x : Q) (k : Z) :
  inject_Z k - 1 < x -> x <= inject_Z k -> Qceiling x = k.
Proof.
  intros L U. unfold Qceiling.
  rewrite (floor_unique (- x) (- k)); [lia | |];
    rewrite inject_Z_opp; lra.
Qed.

Lemma hundredths_nearby (K : Z) (v : Q) :
  (100 <= K <= 100000)%Z ->
  v = rnd (inject_Z K / inject_Z 100) ->
  1 <= v /\ v <= 1000 /\
  (Qfloor (v * pow10 2) = K \/ Qceiling (v * pow10 2) = K).
Proof.
  intros HK Ev.
  destruct (hundredths_range K HK) as [A B].
  change (inject_Z K / 100) with (inject_Z K / inject_Z 100) in A, B.
  destruct (rnd_between 1 1000 _ rnd_1 rnd_1000 A B) as [V1 V2].
  destruct (rnd_error_1_1024 _ A ltac:(lra)) as [E1 E2].
  rewrite <- Ev in V1, V2, E1, E2. clear Ev.
  assert (P : pow2 (-44) * 100 < 1) by reflexivity.
  assert (X : inject_Z K / inject_Z 100 * 100 == inject_Z K)
    by (field; discriminate).
  change (pow10 2) with 100.
  split; [exact V1|]. split; [exact V2|].
  generalize dependent (pow2 (-44)).
  generalize dependent (inject_Z K / inject_Z 100).
  intros q A B X e E1 E2 P.
  destruct (Qlt_le_dec (v * 100) (inject_Z K)) as [C|C].
  - right. apply ceiling_unique; lra.
  - left. apply floor_unique; lra.
Qed.

Lemma shortest_reads_back (K : Z) (v : Q) :
  (100 <= K <= 100000)%Z ->
  v = rnd (inject_Z K / inject_Z 100) ->
  float_of_scaled (fst (shortest v)) (snd (shortest v)) = v.
Proof.
  intros HK Ev. destruct (hundredths_nearby K v HK Ev) as (V1 & V2 & Near).
  assert (Good : float_of_scaled K 2 = v).
  { unfold float_of_scaled. rewrite Ev. apply rnd_comp.
    change (pow10 (- (2))) with (1 # 100). unfold Qdiv.
    change (/ inject_Z 100) with (1 # 100). reflexivity. }
  unfold shortest.
  destruct (find _ _) as [cs|] eqn:F.
  - apply find_some in F. destruct F as [_ T].
    apply Qeq_bool_iff in T. unfold float_of_scaled in *.
    rewrite Ev in T |- *. now apply rnd_canonical.
  - exfalso.
    assert (R : (0 <= ilog10 v <= 3)%Z).
    { apply ilog10_range; [lia | exact V1 |].
      change (pow10 (3 + 1)) with 10000. lra. }
    pose proof (find_none _ _ F (K, 2%Z)) as H.
    cbn [fst snd] in H. rewrite Good in H.
    assert (T : Qeq_bool v v = true) by (apply Qeq_bool_iff; reflexivity).
    rewrite T in H.
    enough (Hin : In (K, 2%Z)
                     (flat_map (candidates v) (map Z.of_nat (seq 1 17)))).
    { specialize (H Hin). discriminate. }
    apply in_flat_map. exists (ilog10 v + 3)%Z. split.
    + assert (C : (ilog10 v = 0 \/ ilog10 v = 1 \/ ilog10 v = 2 \/
                   ilog10 v = 3)%Z) by lia.
      destruct C as [-> | [-> | [-> | ->]]]; vm_compute; tauto.
    + unfold candidates.
      replace (ilog10 v + 3 - 1 - ilog10 v)%Z with 2%Z by lia.
      destruct Near as [N|N]; rewrite N;
        destruct (Qcompare _ _); try destruct (Z.even _); cbn; tauto.
Qed.

Lemma rnd_half : rnd (1 # 2) = 1 # 2.
Proof. vm_compute. reflexivity. Qed.

Lemma rnd_1024 : rnd 1024 = 1024.
Proof. vm_compute. reflexivity. Qed.

Lemma read_back_magnitude (d v : Q) :
  rnd d = v -> 1 <= v -> v <= 1000 -> 1 # 2 <= d /\ d <= 1024.
Proof.
  intros E V1 V2. split.
  - destruct (Qlt_le_dec d (1 # 2)) as [C|C]; [|exact C].
    pose proof (rnd_mono d (1 # 2) ltac:(lra)) as M.
    rewrite rnd_half, E in M. lra.
  - destruct (Qlt_le_dec 1024 d) as [C|C]; [|exact C].
    pose proof (rnd_mono 1024 d ltac:(lra)) as M.
    rewrite rnd_1024, E in M. lra.
Qed.

Lemma read_back_positive (c s : Z) (v : Q) :
  float_of_scaled c s = v -> 1 <= v -> (0 < c)%Z.
Proof.
  intros E V. destruct (Z_lt_le_dec 0 c) as [C|C]; [exact C|]. exfalso.
  unfold float_of_scaled in E.
  assert (N : inject_Z c * pow10 (- s) <= 0).
  { rewrite Zle_Qle in C. change (inject_Z 0) with 0 in C.
    pose proof (pow10_pos (- s)).
    generalize dependent (pow10 (- s)). generalize dependent (inject_Z c).
    intros. nra. }
  pose proof (rnd_mono _ _ N) as M. rewrite rnd_0, E in M. lra.
Qed.

(** What [json] writes for such a float reads back as the same float. *)
Lemma parse_number_float (K : Z) (v : Q) (rest : string) :
  (100 <= K <= 100000)%Z -> v = rnd (inject_Z K / inject_Z 100) ->
  ends_number rest = true ->
  parse_number (float_repr v ++ rest) = Some (JFloat v, rest).
Proof.
  intros HK Ev E.
  destruct (hundredths_nearby K v HK Ev) as (V1 & V2 & _).
  pose proof (shortest_reads_back K v HK Ev) as S.
  unfold float_repr.
  assert (G : Qcompare v 0 = Gt) by (apply Qgt_alt; lra).
  rewrite G. unfold repr_pos.
  destruct (shortest v) as [c0 s0] eqn:Sh. rewrite ?Sh in S. cbn [fst snd] in S.
  pose proof (read_back_positive c0 s0 v S V1) as P0.
  destruct (strip_zeros_spec 17 c0 s0 P0) as [P Eq].
  destruct (strip_zeros 17 c0 s0) as [c s] eqn:St.
  rewrite ?St in P, Eq. cbn [fst snd] in P, Eq.
  assert (S' : float_of_scaled c s = v).
  { rewrite <- S. unfold float_of_scaled. now apply rnd_comp. }
  destruct (read_back_magnitude _ v S' V1 V2) as [M1 M2].
  assert (R : (-1 <= ilog10 (inject_Z c * pow10 (- s)) <= 3)%Z).
  { apply ilog10_range; [lia | |].
    - change (pow10 (-1)) with (1 # 10). lra.
    - change (pow10 (3 + 1)) with 10000. lra. }
  assert (T : ((-4 <? ilog10 (inject_Z c * pow10 (- s)) + 1)%Z &&
               (ilog10 (inject_Z c * pow10 (- s)) + 1 <=? 16)%Z)%bool = true).
  { apply andb_true_intro. split; [apply Z.ltb_lt | apply Z.leb_le]; lia. }
  rewrite T, <- S'. now apply parse_positional.
Qed.

End Repr.

(** ** Values *)

Lemma sep_head_ends_number r : sep_head r = true -> ends_number r = true.
Proof.
  destruct r as [|c r]; [reflexivity|].
  destruct c as [[|] [|] [|] [|] [|] [|] [|] [|]]; intro H;
    try reflexivity; discriminate H.
Qed.

Lemma sep_head_skip r : sep_head r = true -> skip_ws r = r.
Proof.
  destruct r as [|c r]; [reflexivity|].
  destruct c as [[|] [|] [|] [|] [|] [|] [|] [|]]; intro H;
    try reflexivity; discriminate H.
Qed.

Lemma parse_value_of_number f s r :
  parse_number s = Some r -> parse_value (S f) s = Some r.
Proof.
  destruct s as [|c s]; [discriminate|].
  destruct c as [[|] [|] [|] [|] [|] [|] [|] [|]]; intro H;
    try exact H; cbn in H; discriminate.
Qed.

Lemma parse_value_no_ws f s r : parse_value f s = Some r -> skip_ws s = s.
Proof.
  destruct f as [|f]; [discriminate|].
  destruct s as [|c s]; [reflexivity|].
  destruct c as [[|] [|] [|] [|] [|] [|] [|] [|]]; intro H;
    try reflexivity; cbn in H; discriminate.
Qed.

Lemma parses_int n : parses (JInt n) 1.
Proof.
  intros [|f] r Hf Hr; [lia|]. cbn [emit].
  apply parse_value_of_number, parse_number_int, sep_head_ends_number, Hr.
Qed.

Lemma parses_float K v :
  100 <= K <= 100000 -> v = rnd (inject_Z K / inject_Z 100) ->
  parses (JFloat v) 1.
Proof.
  intros HK Ev [|f] r Hf Hr; [lia|]. cbn [emit].
  apply parse_value_of_number, (parse_number_float K); auto.
  now apply sep_head_ends_number.
Qed.

Lemma parses_str s : parses (JStr s) 1.
Proof.
  intros [|f] r Hf Hr; [lia|]. cbn [emit]. unfold emit_string.
  cbn [parse_value]. change (Ascii.eqb quote quote) with true. cbv iota.
  now rewrite scan_string_escape.
Qed.

Lemma parses_bool b : parses (JBool b) 1.
Proof. intros [|f] r Hf Hr; [lia|]. destruct b; reflexivity. Qed.

Lemma parses_weaken x fv fv' : parses x fv -> (fv <= fv')%nat -> parses x fv'.
Proof. intros H L f r Hf Hr. apply H; [lia | exact Hr]. Qed.

(** ** Lists and dictionaries *)

Lemma value_head f s r :
  parse_value f s = Some r ->
  exists c t, s = String c t /\ is_ws c = false /\
              Ascii.eqb c "]" = false /\ Ascii.eqb c "}" = false.
Proof.
  destruct f as [|f]; [discriminate|].
  destruct s as [|c s]; [discriminate|]. intro H. exists c, s.
  split; [reflexivity|]. revert H.
  destruct c as [[|] [|] [|] [|] [|] [|] [|] [|]]; intro H;
    try (repeat split; reflexivity); cbn in H; discriminate.
Qed.

Lemma items_tail_sep (l : list json) rest :
  sep_head (match l with
            | [] => String "]" rest
            | _ :: _ => (", " ++ emit_items emit l rest)%string
            end) = true.
Proof. destruct l; reflexivity. Qed.

Lemma members_tail_sep (d : list (string * json)) rest :
  sep_head (match d with
            | [] => String "}" rest
            | _ :: _ => (", " ++ emit_members emit d rest)%string
            end) = true.
Proof. destruct d; reflexivity. Qed.

Lemma skip_ws_comma s : skip_ws (String "," s) = String "," s.
Proof. reflexivity. Qed.

Lemma skip_ws_space s : skip_ws (String " " s) = skip_ws s.
Proof. reflexivity. Qed.

Lemma parse_elements_spec fv l : forall f acc rest,
  l <> [] -> (forall x, In x l -> parses x fv) ->
  (fv + List.length l <= f)%nat ->
  parse_elements f (emit_items emit l rest) acc = Some (JList (acc ++ l), rest).
Proof.
  induction l as [|x l IH]; intros f acc rest NE P Hf; [contradiction|].
  destruct f as [|f]; [cbn in Hf; lia|].
  cbn [emit_items parse_elements].
  rewrite (P x (or_introl eq_refl) f _ ltac:(cbn in Hf; lia)
             (items_tail_sep l rest)).
  destruct l as [|x' l'].
  - reflexivity.
  - cbn [append]. rewrite skip_ws_comma.
    change (Ascii.eqb "," "]") with false.
    change (Ascii.eqb "," ",") with true. cbv iota.
    rewrite skip_ws_space.
    pose proof (P x' (or_intror (or_introl eq_refl)) f _
                  ltac:(cbn in Hf; lia) (items_tail_sep l' rest)) as Hx'.
    rewrite (parse_value_no_ws f (emit_items emit (x' :: l') rest) _ Hx').
    rewrite IH; [now rewrite <- app_assoc | discriminate | |].
    + intros y Hy. apply P. now right.
    + cbn in *. lia.
Qed.

Lemma parses_list fv l :
  (forall x, In x l -> parses x fv) ->
  parses (JList l) (fv + List.length l + 1).
Proof.
  intros P f r Hf Hr. destruct f as [|f]; [lia|].
  cbn [emit]. destruct l as [|x l'].
  - reflexivity.
  - pose proof (P x (or_introl eq_refl) f _ ltac:(cbn in Hf; lia)
                  (items_tail_sep l' r)) as Hx.
    pose proof (parse_value_no_ws _ _ _ Hx) as W.
    destruct (value_head _ _ _ Hx) as (c & t & E & _ & C1 & _).
    change (emit x _) with (emit_items emit (x :: l') r) in W, E.
    cbn [parse_value]. change (Ascii.eqb "[" quote) with false.
    change (Ascii.eqb "[" "{") with false.
    change (Ascii.eqb "[" "[") with true. cbv iota.
    rewrite W, E, C1, <- E.
    apply (parse_elements_spec fv); [discriminate | exact P |].
    cbn in *. lia.
Qed.

Lemma skip_ws_colon s : skip_ws (String ":" s) = String ":" s.
Proof. reflexivity. Qed.

Lemma parse_members_step f k v X R acc :
  parse_value f X = Some (v, R) ->
  parse_members (S f) (emit_string k (": " ++ X)) acc =
  match skip_ws R with
  | String c r =>
      if Ascii.eqb c "}" then Some (JDict (dict_set k v acc), r)
      else if Ascii.eqb c "," then
        parse_members f (skip_ws r) (dict_set k v acc)
      else None
  | EmptyString => None
  end.
Proof.
  intro H. unfold emit_string. cbn [parse_members].
  rewrite Ascii.eqb_refl, scan_string_escape.
  change (": " ++ X)%string with (String ":" (String " " X)).
  rewrite skip_ws_colon, Ascii.eqb_refl, skip_ws_space.
  now rewrite (parse_value_no_ws _ _ _ H), H.
Qed.

Lemma parse_members_spec fv d : forall f acc rest,
  d <> [] -> (forall k x, In (k, x) d -> parses x fv) ->
  (fv + List.length d <= f)%nat ->
  parse_members f (emit_members emit d rest) acc =
  Some (JDict (fold_left set_pair d acc), rest).
Proof.
  induction d as [|[k x] d IH]; intros f acc rest NE P Hf; [contradiction|].
  destruct f as [|f]; [cbn in Hf; lia|].
  cbn [emit_members].
  pose proof (P k x (or_introl eq_refl) f _ ltac:(cbn in Hf; lia)
                (members_tail_sep d rest)) as Hx.
  rewrite (parse_members_step f k x _ _ acc Hx).
  destruct d as [|[k' x'] d'].
  - reflexivity.
  - change (", " ++ ?s)%string with (String "," (String " " s)).
    rewrite skip_ws_comma.
    change (Ascii.eqb "," "}") with false.
    change (Ascii.eqb "," ",") with true. cbv iota.
    rewrite skip_ws_space.
    assert (W : skip_ws (emit_members emit ((k', x') :: d') rest) =
                emit_members emit ((k', x') :: d') rest) by reflexivity.
    rewrite W, IH; [reflexivity | discriminate | |].
    + intros k0 x0 H0. apply (P k0 x0). now right.
    + cbn in *. lia.
Qed.

Lemma parses_dict fv d :
  (forall k x, In (k, x) d -> parses x fv) ->
  fold_left set_pair d [] = d ->
  parses (JDict d) (fv + List.length d + 1).
Proof.
  intros P ND f r Hf Hr. destruct f as [|f]; [lia|].
  cbn [emit]. destruct d as [|[k x] d'].
  - reflexivity.
  - cbn [parse_value]. change (Ascii.eqb "{" quote) with false.
    change (Ascii.eqb "{" "{") with true. cbv iota.
    assert (W : skip_ws (emit_members emit ((k, x) :: d') r) =
                emit_members emit ((k, x) :: d') r) by reflexivity.
    rewrite W.
    assert (E : exists t, emit_members emit ((k, x) :: d') r = String quote t)
      by (eexists; reflexivity).
    destruct E as [t E]. rewrite E.
    change (Ascii.eqb quote "}") with false. cbv iota. rewrite <- E.
    rewrite (parse_members_spec fv); [now rewrite ND | discriminate | exact P |].
    cbn in *. lia.
Qed.

(** ** The batch on the wire *)

Lemma parses_newValue env tag v : value_ok env tag v -> parses (of_pyval v) 1.
Proof.
  intros [n Hn|x L U R|n Hn|b|i]; cbn [of_pyval].
  - apply parses_str.
  - apply (parses_float (rne (x * 100)%Q)).
    + now apply rne_hundred_range.
    + symmetry. exact R.
  - apply parses_int.
  - apply parses_bool.
  - apply parses_int.
Qed.

Lemma parses_change env c : change_ok env c -> parses (change_value c) 6.
Proof.
  intros (_ & _ & V). unfold change_value.
  apply (parses_dict 1); [|reflexivity].
  intros k x [E|[E|[E|[E|[]]]]]; injection E as <- <-.
  - apply parses_int.
  - apply parses_int.
  - eapply parses_newValue, V.
  - apply parses_str.
Qed.

Lemma parses_batch env b :
  Forall (change_ok env) (changes b) ->
  parses (batch_value b) (List.length (changes b) + 13).
Proof.
  intro F. unfold batch_value.
  eapply parses_weaken;
    [apply (parses_dict (7 + List.length (changes b))); [|reflexivity]
    | cbn; lia].
  intros k x [E|[E|[E|[E|[E|[]]]]]]; injection E as <- <-.
  - eapply parses_weaken; [apply parses_str | lia].
  - eapply parses_weaken; [apply parses_str | lia].
  - eapply parses_weaken; [apply parses_str | lia].
  - eapply parses_weaken; [apply (parses_list 6)|rewrite length_map; lia].
    intros y Hy. apply in_map_iff in Hy. destruct Hy as (c & <- & Hc).
    rewrite Forall_forall in F. eapply parses_change, F, Hc.
  - eapply parses_weaken; [apply parses_int | lia].
Qed.

(** *** The document is long enough to be read *)


Lemma length_append (a b : string) :
  String.length (a ++ b) = (String.length a + String.length b)%nat.
Proof. induction a as [|c a IH]; cbn; [reflexivity | now rewrite IH]. Qed.

Lemma length_escape_into s : forall r,
  (String.length r <= String.length (escape_into s r))%nat.
Proof.
  induction s as [|c s IH]; intro r; cbn [escape_into]; [lia|].
  rewrite length_append. specialize (IH r). lia.
Qed.

Lemma length_emit_string s r :
  (2 + String.length r <= String.length (emit_string s r))%nat.
Proof.
  unfold emit_string. cbn [String.length].
  pose proof (length_escape_into s (String quote r)) as H. cbn in H. lia.
Qed.

Lemma grows_str s : grows_by (JStr s) 0.
Proof. intro r. cbn [emit]. pose proof (length_emit_string s r). lia. Qed.

Lemma grows_int n : grows_by (JInt n) 0.
Proof. intro r. cbn [emit]. rewrite length_append. lia. Qed.

Lemma grows_newValue v : grows_by (of_pyval v) 0.
Proof.
  destruct v as [s|x|n|[|]]; try apply grows_str; try apply grows_int;
    intro r; cbn [of_pyval emit]; rewrite length_append; lia.
Qed.

Lemma length_member k x n R :
  grows_by x n ->
  (4 + n + String.length R
   <= String.length (emit_string k (": " ++ emit x R)))%nat.
Proof.
  intro G. pose proof (length_emit_string k (": " ++ emit x R)) as H1.
  rewrite length_append in H1. cbn [String.length] in H1.
  specialize (G R). lia.
Qed.

Lemma grows_members d ns :
  Forall2 (fun kx n => grows_by (snd kx) n) d ns ->
  forall r, (list_sum ns + 4 * List.length d + String.length r
             <= String.length (emit_members emit d r))%nat.
Proof.
  induction 1 as [|[k x] n d ns G F IH]; intro r.
  - cbn. lia.
  - specialize (IH r). cbn [snd] in G.
    destruct d as [|kx d'].
    + inversion F; subst. unfold list_sum.
      cbn [emit_members fold_right List.length].
      pose proof (length_member k x n (String "}" r) G) as H.
      cbn [String.length] in H. lia.
    + change (emit_members emit ((k, x) :: kx :: d') r)
        with (emit_string k
                (": " ++ emit x (", " ++ emit_members emit (kx :: d') r))).
      pose proof (length_member k x n
                    (", " ++ emit_members emit (kx :: d') r) G) as H.
      rewrite length_append in H. unfold list_sum in *.
      cbn [fold_right List.length String.length] in *. lia.
Qed.

Lemma grows_items l :
  (forall x, In x l -> grows_by x 1) ->
  forall r, (List.length l + String.length r
             <= String.length (emit_items emit l r))%nat.
Proof.
  induction l as [|x l IH]; intros G r.
  - cbn. lia.
  - specialize (IH (fun y Hy => G y (or_intror Hy)) r).
    pose proof (G x (or_introl eq_refl)) as Gx.
    destruct l as [|x' l'].
    + cbn [emit_items List.length]. specialize (Gx (String "]" r)).
      cbn [String.length] in *. lia.
    + change (emit_items emit (x :: x' :: l') r)
        with (emit x (", " ++ emit_items emit (x' :: l') r)).
      specialize (Gx (", " ++ emit_items emit (x' :: l') r)%string).
      rewrite length_append in Gx.
      cbn [List.length String.length] in *. lia.
Qed.

Lemma grows_change c : grows_by (change_value c) 1.
Proof.
  intro r. unfold change_value. cbn [emit String.length].
  assert (F : Forall2 (fun kx n => grows_by (snd kx) n)
                [("row", JInt (row c)); ("column", JInt (column c));
                 ("newValue", of_pyval (newValue c));
                 ("dataType", JStr (dataType c))] [0; 0; 0; 0]%nat)
    by (repeat (apply Forall2_cons; [cbn [snd];
          auto using grows_int, grows_str, grows_newValue|]);
        apply Forall2_nil).
  pose proof (grows_members _ _ F r) as H.
  unfold list_sum in H. cbn [fold_right List.length] in H. lia.
Qed.

Lemma length_dumps_batch b :
  (List.length (changes b) + 13
   <= S (String.length (dumps (batch_value b))))%nat.
Proof.
  unfold dumps, batch_value. cbn [emit String.length].
  assert (G : grows_by (JList (map change_value (changes b)))
                       (List.length (changes b))).
  { intro r. cbn [emit String.length].
    pose proof (grows_items (map change_value (changes b))) as H.
    rewrite length_map in H. specialize (H ltac:(
      intros x Hx; apply in_map_iff in Hx; destruct Hx as (c & <- & _);
      apply grows_change) r). lia. }
  assert (F : Forall2 (fun kx n => grows_by (snd kx) n)
                [("batchId", JStr (batchId b)); ("gridId", JStr (gridId b));
                 ("eventType", JStr (eventType b));
                 ("changes", JList (map change_value (changes b)));
                 ("timestamp", JInt (timestamp b))]
                [0; 0; 0; List.length (changes b); 0]%nat)
    by (repeat (apply Forall2_cons; [cbn [snd];
          auto using grows_int, grows_str|]);
        apply Forall2_nil).
  pose proof (grows_members _ _ F EmptyString) as H.
  unfold list_sum in H.
  cbn [fold_right List.length String.length] in H. lia.
Qed.

Lemma loads_dumps v fv :
  parses v fv -> (fv <= S (String.length (dumps v)))%nat ->
  skip_ws (dumps v) = dumps v ->
  loads (value_serializer v) = Some v.
Proof.
  intros P L W. unfold loads, value_serializer.
  rewrite decode_encode_utf8, W. unfold dumps in *.
  now rewrite (P _ EmptyString L eq_refl).
Qed.


(** * Sample runs, witnesses and counterexamples *)

(** Three rounds with the clock ticking. *)
Example ticking_run :
  map (fun b => (batchId b, List.length (changes b), timestamp b))
      (run_batches_of env_ticking 3) =
  [("batch_1700000000100_2577", 3%nat, 1700000000200);
   ("batch_1700000000300_7932", 3%nat, 1700000000400);
   ("batch_1700000000500_4287", 3%nat, 1700000000600)].
Proof. vm_compute. reflexivity. Qed.

(** [synthesize(3)] yields three changes, whatever the draws; a count
    below one yields none. *)
Example three_changes env st :
  returns (create_cell_update_message "user1_view1" 3) env st
    (fun b _ => List.length (changes b) = 3%nat).
Proof.
  eapply returns_weaken; [apply create_cell_update_message_returns|].
  cbn. intros b st' (_ & L & _). exact L.
Qed.

Example no_changes_for_negative_count env st :
  returns (create_cell_update_message "user1_view1" (-2)) env st
    (fun b _ => changes b = []).
Proof.
  eapply returns_weaken; [apply create_cell_update_message_returns|].
  cbn. intros b st' (_ & L & _). now destruct (changes b).
Qed.

(** The broker cannot be reached: the error is printed, [close] is not
    called (the variable is unbound) and [main] returns. *)
Example no_broker_run :
  main 3 env_no_broker init_state =
  (Ret tt,
   mkState 0 0 5 None
     [EvPrint LStarting; EvPrint LWillSend; EvPrint LPressCtrlC;
      EvConnect ["localhost:9092"];
      EvPrint (LError (Exc "NoBrokersAvailable"))]).
Proof. vm_compute. reflexivity. Qed.

(** Without failure or interrupt the loop does not end. *)
Example ticking_run_goes_on :
  fst (main 5 env_ticking init_state) = Running.
Proof. vm_compute. reflexivity. Qed.

(** [repr] of two floats, as Python prints them. *)
Example float_repr_samples :
  map float_repr [rnd (1 # 10); (- (3 # 2))%Q] = ["0.1"; "-1.5"].
Proof. vm_compute. reflexivity. Qed.

(** A batch with a value of each kind, written and read back. *)
Example sample_round_trip :
  loads (value_serializer (batch_value sample_batch)) =
  Some (batch_value sample_batch).
Proof. vm_compute. reflexivity. Qed.

(** ** C1 to C10: witnesses and counterexamples *)

(** C3, counterexample: two successive batches of a run with the same
    batchId (same millisecond, same suffix). *)
Lemma same_reading_same_batch_id :
  exists A B,
    nth_error (run_batches_of env_same_reading 2) 0 = Some A /\
    nth_error (run_batches_of env_same_reading 2) 1 = Some B /\
    batchId A = batchId B.
Proof.
  eexists _, _. split; [vm_compute; reflexivity|].
  split; [vm_compute; reflexivity | reflexivity].
Qed.

(** C3, witness of the amended statement. *)
Lemma batch_ids_ticking_witness :
  exists A B,
    nth_error (run_batches_of env_ticking 2) 0 = Some A /\
    nth_error (run_batches_of env_ticking 2) 1 = Some B /\
    exists iA sA iB sB,
      (iA < iB)%nat /\
      1000 <= sA <= 9999 /\ 1000 <= sB <= 9999 /\
      batchId A = ("batch_" ++ py_str (ms_at env_ticking iA) ++ "_"
                            ++ py_str sA)%string /\
      batchId B = ("batch_" ++ py_str (ms_at env_ticking iB) ++ "_"
                            ++ py_str sB)%string /\
      (batchId A = batchId B <->
       ms_at env_ticking iA = ms_at env_ticking iB /\ sA = sB).
Proof.
  eexists _, _. split; [vm_compute; reflexivity|].
  split; [vm_compute; reflexivity|].
  apply (batch_ids_differ_by_reading_or_suffix env_ticking 2 0 1);
    [lia | vm_compute; reflexivity | vm_compute; reflexivity].
Defined.

(** C4, counterexample: the clock is set back during the run, and the
    second batch carries an earlier timestamp than the first. *)
Lemma clock_set_back_timestamps_decrease :
  exists A B,
    nth_error (run_batches_of env_clock_set_back 2) 0 = Some A /\
    nth_error (run_batches_of env_clock_set_back 2) 1 = Some B /\
    timestamp B < timestamp A.
Proof.
  eexists _, _. split; [vm_compute; reflexivity|].
  split; [vm_compute; reflexivity | reflexivity].
Qed.

Lemma ticking_clock_monotone k l :
  (k <= l)%nat -> (clock_tape env_ticking k <= clock_tape env_ticking l)%Q.
Proof.
  intro H. cbn [clock_tape env_ticking].
  apply Qplus_le_r. apply Qmult_le_compat_r; [|discriminate].
  rewrite <- Zle_Qle. lia.
Qed.

(** C4, witness of the amended statement. *)
Lemma timestamps_ticking_witness :
  exists A B,
    nth_error (run_batches_of env_ticking 2) 0 = Some A /\
    nth_error (run_batches_of env_ticking 2) 1 = Some B /\
    timestamp A <= timestamp B.
Proof.
  eexists _, _. split; [vm_compute; reflexivity|].
  split; [vm_compute; reflexivity|].
  apply (timestamps_follow_clock env_ticking 2 0 1);
    [exact ticking_clock_monotone | lia
    | vm_compute; reflexivity | vm_compute; reflexivity].
Defined.

Lemma first_raise_at env i e :
  (forall n, ext_tape env n = if Nat.eqb n i then Some e else None) ->
  first_raise env i e.
Proof.
  intro H. split.
  - intros j Hj. rewrite H. destruct (Nat.eqb_spec j i); [lia | reflexivity].
  - rewrite H. now rewrite Nat.eqb_refl.
Defined.

(** C6, witness: the interrupt arrives in the first [sleep]. *)
Lemma interrupt_asleep_witness :
  exists d,
    first_raise env_interrupt_asleep 12 KeyboardInterrupt /\
    nth_error (log (snd (main 3 env_interrupt_asleep init_state))) 12 =
      Some (EvSleep d) /\
    fst (main 3 env_interrupt_asleep init_state) <> Running /\
    closes (log (snd (main 3 env_interrupt_asleep init_state))) = 1%nat /\
    closes (firstn 13 (log (snd (main 3 env_interrupt_asleep init_state)))) =
      0%nat /\
    (ext_tape env_interrupt_asleep 13 = None ->
     fst (main 3 env_interrupt_asleep init_state) = Ret tt).
Proof.
  eexists. split; [apply first_raise_at; reflexivity|].
  split; [vm_compute; reflexivity|].
  eapply (close_once_when_interrupted_asleep env_interrupt_asleep 3 12);
    [apply first_raise_at; reflexivity | vm_compute; reflexivity].
Defined.

(** C7, witness: the same draws and clock readings, at the start of a
    run and in mid-run with no broker in reach. *)
Lemma synthesizer_pure_witness :
  same_inputs env_ticking init_state env_ticking_late st_mid_run /\
  exists b st1' st2',
    create_cell_update_message "user1_view1" 3 env_ticking init_state =
      (Ret b, st1') /\
    create_cell_update_message "user1_view1" 3 env_ticking_late st_mid_run =
      (Ret b, st2') /\
    xpos st1' = xpos init_state /\ producer st1' = producer init_state /\
    log st1' = log init_state /\
    xpos st2' = xpos st_mid_run /\ producer st2' = producer st_mid_run /\
    log st2' = log st_mid_run.
Proof.
  assert (S : same_inputs env_ticking init_state env_ticking_late st_mid_run).
  { split; intro k; cbn [rpos cpos init_state st_mid_run env_ticking_late
                          rand_tape clock_tape].
    - replace (2 + k - 2)%nat with (0 + k)%nat by lia. reflexivity.
    - replace (1 + k - 1)%nat with (0 + k)%nat by lia. reflexivity. }
  split; [exact S|].
  exact (synthesizer_pure "user1_view1" 3 env_ticking init_state
           env_ticking_late st_mid_run S).
Defined.

(** C8, witness: every draw is 2, which forces the tag ["integer"]. *)
Lemma forced_integer_witness :
  chosen_tag env_all_twos init_state = "integer" /\
  exists b st' c n,
    create_cell_update_message "user1_view1" 1 env_all_twos init_state =
      (Ret b, st') /\
    changes b = [c] /\ dataType c = "integer" /\
    newValue c = VInt n /\ 1 <= n <= 1000.
Proof.
  split; [reflexivity|].
  apply (forced_integer_in_range "user1_view1" env_all_twos init_state).
  reflexivity.
Defined.

(** C9, counterexample: the interrupt arrives during the first [print],
    before the [try] statement is entered. *)
Lemma interrupt_at_start_propagates :
  fst (main 3 env_interrupt_at_start init_state) = Raise KeyboardInterrupt.
Proof. vm_compute. reflexivity. Qed.

(** Two more runs that end in an exception: a second interrupt during the
    [print] of the handler (after [close] has run), and an exception that
    is neither a [KeyboardInterrupt] nor an [Exception]. *)
Example interrupt_twice_propagates :
  fst (main 3 env_interrupt_twice init_state) = Raise KeyboardInterrupt /\
  closes (log (snd (main 3 env_interrupt_twice init_state))) = 1%nat.
Proof. split; vm_compute; reflexivity. Qed.

Example system_exit_propagates :
  fst (main 3 env_system_exit init_state) = Raise SystemExit.
Proof. vm_compute. reflexivity. Qed.

(** C9, witness of the amended statement: the first [send] fails. *)
Lemma send_fails_witness :
  (forall e, fst (main 3 env_send_fails init_state) <> Raise e) /\
  (forall i e, first_raise env_send_fails i e -> (i < 5 + 8 * 3)%nat ->
               fst (main 3 env_send_fails init_state) = Ret tt).
Proof.
  apply (main_returns_when_handlers_cover env_send_fails 3);
    try reflexivity.
  intros i e [_ E]. cbn [ext_tape env_send_fails] in *.
  destruct (Nat.eqb_spec i 5) as [->|D]; [|discriminate].
  injection E as <-. split; [discriminate | reflexivity].
Defined.

(** C10: a value produced by the ["number"] branch. *)
Example number_run :
  returns (create_cell_update_message "user1_view1" 1) env_number init_state
    (fun b _ =>
       map (fun c => (dataType c, newValue c)) (changes b) =
       [("number", VFloat (rnd (54639 # 100)))]).
Proof. eexists _, _. split; vm_compute; reflexivity. Qed.
